(** * libsrng: a shallow embedding of the generator and its specification

    The C source keeps the whole generator state in one [uint64_t] register.
    Integers are modelled as [Z] with every conversion to a fixed-width
    unsigned type written out as a reduction modulo a power of two; bit
    operations are the ones of [Z].  Pointers to the register are modelled
    by explicit state passing: a function taking [uint64_t *state] becomes
    a function from the register value to the pair of its return value and
    the value the register holds afterwards. *)

From Stdlib Require Import ZArith List Lia Bool.
Import ListNotations.
Local Open Scope Z_scope.

(** ** Fixed-width unsigned conversions *)

Definition u8 (x : Z) : Z := x mod 2 ^ 8.
Definition u16 (x : Z) : Z := x mod 2 ^ 16.
Definition u32 (x : Z) : Z := x mod 2 ^ 32.
Definition u64 (x : Z) : Z := x mod 2 ^ 64.

(** ** Constants of the source *)

Definition HALFWORD_LCG_MULTIPLIER : Z := 0x6329.
Definition HALFWORD_LCG_ADDEND : Z := 0x4321.
Definition SEED_LCG_MULTIPLIER : Z := 0x5851f42d4c957f2d.
Definition SEED_LCG_FIRST_ADDEND : Z := 0x0123456789abcdef.
Definition SEED_LCG_SECOND_ADDEND : Z := 0x0fedcba987654321.

Definition SWITCH_TRIGGER_STATE_0 : Z := 0x3243f6a8885a308d.
Definition SWITCH_TRIGGER_STATE_1 : Z := 0x2b7e151628aed2a6.
Definition SWITCH_TRIGGER_STATE_2 : Z := 0x19e3779b97f4a7c1.

(** ** The sub-state of the byte generator *)

Record libsrng_stable_random_state : Type := mk_state {
  shift : Z;     (* uint32_t *)
  carry : Z;     (* uint8_t *)
  current : Z;   (* uint8_t *)
  prev : Z;      (* uint8_t *)
  linear : Z     (* uint8_t *)
}.

(** Assignments to a field convert the value to the field's type. *)

Definition set_shift (s : libsrng_stable_random_state) (v : Z) :=
  mk_state (u32 v) (carry s) (current s) (prev s) (linear s).
Definition set_carry (s : libsrng_stable_random_state) (v : Z) :=
  mk_state (shift s) (u8 v) (current s) (prev s) (linear s).
Definition set_current (s : libsrng_stable_random_state) (v : Z) :=
  mk_state (shift s) (carry s) (u8 v) (prev s) (linear s).
Definition set_prev (s : libsrng_stable_random_state) (v : Z) :=
  mk_state (shift s) (carry s) (current s) (u8 v) (linear s).
Definition set_linear (s : libsrng_stable_random_state) (v : Z) :=
  mk_state (shift s) (carry s) (current s) (prev s) (u8 v).

(** A sub-state whose fields hold values of their C types. *)

Definition state_wf (s : libsrng_stable_random_state) : Prop :=
  0 <= shift s < 2 ^ 32 /\ 0 <= carry s < 2 ^ 8 /\ 0 <= current s < 2 ^ 8 /\
  0 <= prev s < 2 ^ 8 /\ 0 <= linear s < 2 ^ 8.

(** [STABLE_RANDOM_NEXT_LINEAR(s)]: [linear *= 73, linear += 29, linear].
    The macro's value is the [linear] field of the state it returns. *)

Definition STABLE_RANDOM_NEXT_LINEAR (s : libsrng_stable_random_state) :=
  let s1 := set_linear s (linear s * 73) in
  set_linear s1 (linear s1 + 29).

Definition cycle_start_points : list Z := [1; 2; 4; 8; 13; 17; 23; 26; 29; 58; 0].
Definition short_cycles : list Z :=
  [0x72; 0x4f; 0x9f; 0x7b; 0x1a; 0x7b; 0x84; 0xe5; 0x56; 0x8d; 0xb0; 0x32; 0; 0; 1].

Definition at_index (l : list Z) (p : nat) : Z := nth p l 0.

(** [if (!state->shift) for (p = 0; p < 4; p++)
       state->shift = (state->shift << 8) | STABLE_RANDOM_NEXT_LINEAR(state);] *)

Fixpoint refill_shift (n : nat) (s : libsrng_stable_random_state) :=
  match n with
  | O => s
  | S n' =>
      let s1 := STABLE_RANDOM_NEXT_LINEAR s in
      refill_shift n' (set_shift s1 (Z.lor (u32 (Z.shiftl (shift s1) 8)) (linear s1)))
  end.

Definition lazy_init (s : libsrng_stable_random_state) :=
  if shift s =? 0 then refill_shift 4 s else s.

(** The three xorshift assignments. *)

Definition xorshift_triple (x : Z) : Z :=
  let x1 := u32 (Z.lxor x (Z.shiftr x 8)) in
  let x2 := u32 (Z.lxor x1 (u32 (Z.shiftl x1 9))) in
  u32 (Z.lxor x2 (Z.shiftr x2 23)).

Definition scramble (s : libsrng_stable_random_state) :=
  set_shift s (xorshift_triple (shift s)).

(** The splice loop over [short_cycles]: [n] iterations remain, the loop
    variable is [p]; a match replaces the triple and leaves the loop. *)

Fixpoint splice_loop (n p : nat) (s : libsrng_stable_random_state) :=
  match n with
  | O => s
  | S n' =>
      if (prev s =? at_index short_cycles p) &&
         (current s =? at_index short_cycles (p + 1)) &&
         (carry s =? at_index short_cycles (p + 2))
      then
        let s1 := set_prev s (at_index short_cycles (p + 3)) in
        let s2 := set_current s1 (at_index short_cycles (p + 4)) in
        set_carry s2 (at_index short_cycles (p + 5))
      else splice_loop n' (p + 3) s
  end.

(** The start-up loop over [cycle_start_points]. *)

Fixpoint start_loop (n p : nat) (s : libsrng_stable_random_state) :=
  match n with
  | O => s
  | S n' =>
      if carry s =? at_index cycle_start_points p then
        let s1 := set_carry s (at_index cycle_start_points (p + 1)) in
        if carry s1 =? 0 then
          let s2 := set_prev s1 (at_index short_cycles 0) in
          let s3 := set_current s2 (at_index short_cycles 1) in
          let s4 := set_carry s3 (at_index short_cycles 2) in
          STABLE_RANDOM_NEXT_LINEAR s4
        else s1
      else start_loop n' (p + 1) s
  end.

(** [if (state->prev || state->current)] the splice loop, [else] the
    start-up loop. *)

Definition cycle_escape (s : libsrng_stable_random_state) :=
  if negb (prev s =? 0) || negb (current s =? 0)
  then splice_loop 4 0 s      (* p = 0, 3, 6, 9: p < sizeof short_cycles - 3 *)
  else start_loop 10 0 s.     (* p < sizeof cycle_start_points - 1 *)

(** [if (state->carry >= 210) state->carry -= 210;] *)

Definition normalize_carry (s : libsrng_stable_random_state) :=
  if carry s >=? 210 then set_carry s (carry s - 210) else s.

(** [p = state->carry + state->prev + state->current;] and, when [p] is 0
    or 719, [prev], [carry] and [current] are assigned three successive
    values of [STABLE_RANDOM_NEXT_LINEAR], in that order. *)

Definition fixed_point_escape (s : libsrng_stable_random_state) :=
  let p := u32 (carry s + prev s + current s) in
  if (p =? 0) || (p =? 719) then
    let s1 := STABLE_RANDOM_NEXT_LINEAR s in
    let s1 := set_prev s1 (linear s1) in
    let s2 := STABLE_RANDOM_NEXT_LINEAR s1 in
    let s2 := set_carry s2 (linear s2) in
    let s3 := STABLE_RANDOM_NEXT_LINEAR s2 in
    set_current s3 (linear s3)
  else s.

(** [p = 210 * state->prev + state->carry; state->prev = state->current;
     state->current = p & 0xff; state->carry = p >> 8;] *)

Definition generator_step (s : libsrng_stable_random_state) :=
  let p := u32 (210 * prev s + carry s) in
  let s1 := set_prev s (current s) in
  let s2 := set_current s1 (Z.land p 0xff) in
  set_carry s2 (Z.shiftr p 8).

(** Everything [libsrng_stable_random] does to the sub-state: the lines up
    to and including the last [STABLE_RANDOM_NEXT_LINEAR]. *)

Definition stable_advance (s : libsrng_stable_random_state) :=
  STABLE_RANDOM_NEXT_LINEAR
    (generator_step
       (fixed_point_escape
          (normalize_carry
             (cycle_escape
                (scramble
                   (lazy_init s)))))).

(** The final combine: [p = shift >> ((linear >> 3) & 24)] and the switch on
    [(linear >> 4) & 3]; the return type is [unsigned char]. *)

Definition combine_offset (l : Z) : Z := Z.land (Z.shiftr l 3) 24.
Definition combine_selector (l : Z) : Z := Z.land (Z.shiftr l 4) 3.

Definition stable_combine (s : libsrng_stable_random_state) : Z :=
  let p := Z.shiftr (shift s) (combine_offset (linear s)) in
  match combine_selector (linear s) with
  | 0 => u8 (u32 (p + current s))
  | 1 => u8 (Z.lxor p (current s))
  | 2 => u8 (u32 (p - current s))
  | _ => u8 (u32 (current s - p))
  end.

Definition libsrng_stable_random (s : libsrng_stable_random_state)
  : Z * libsrng_stable_random_state :=
  let s' := stable_advance s in
  (stable_combine s', s').

(** ** ByteAdapter: the register seen as a sub-state

    [libsrng_random_combined] overlays the struct on the register when a
    compile-time test of the object representation succeeds, and otherwise
    unpacks and repacks the fields with shifts.  The object representation
    is modelled as a list of eight bytes (values below 256) in one of two
    byte orders; the struct has no padding ([uint32_t] followed by four
    [uint8_t]), so its fields sit at byte offsets 0, 4, 5, 6 and 7.

    The in-place branch reads and writes the register, an object of type
    [uint64_t], through the members of the struct.  For the four byte
    members this is an access through a character type.  For [shift] it is
    an access through an lvalue of type [uint32_t], to which C gives no
    meaning (C11 6.5p7): [combined_overlay] below is that branch when the
    value read through [state->shift] is the one the register holds, which
    is the case unless the register was last written through its
    [uint64_t] lvalue and the compiler used the aliasing rule.  That case
    is the subject of the module [Aliasing] further down. *)

Inductive byte_order : Type := LittleEndian | BigEndian.

Fixpoint store_le (n : nat) (x : Z) : list Z :=
  match n with
  | O => []
  | S n' => x mod 256 :: store_le n' (x / 256)
  end.

Fixpoint load_le (bs : list Z) : Z :=
  match bs with
  | [] => 0
  | b :: bs' => b + 256 * load_le bs'
  end.

Definition store_int (o : byte_order) (n : nat) (x : Z) : list Z :=
  match o with
  | LittleEndian => store_le n x
  | BigEndian => rev (store_le n x)
  end.

Definition load_int (o : byte_order) (bs : list Z) : Z :=
  match o with
  | LittleEndian => load_le bs
  | BigEndian => load_le (rev bs)
  end.

Definition sizeof_uint64 : Z := 8.
Definition sizeof_state_struct : Z := 4 + 1 + 1 + 1 + 1.
Definition sizeof_state_union : Z := Z.max sizeof_uint64 sizeof_state_struct.

(** Reading and writing the struct through the union. *)

Definition struct_load (o : byte_order) (m : list Z) : libsrng_stable_random_state :=
  mk_state (load_int o (firstn 4 m))
           (at_index m 4) (at_index m 5) (at_index m 6) (at_index m 7).

Definition struct_store (o : byte_order) (s : libsrng_stable_random_state) : list Z :=
  store_int o 4 (shift s) ++
  store_int o 1 (carry s) ++ store_int o 1 (current s) ++
  store_int o 1 (prev s) ++ store_int o 1 (linear s).

(** The condition of the [if]: both size tests and
    [((union ...) {.numeric = 0x0123456789abcdef}).structured.shift == 0x89abcdef]. *)

Definition overlay_condition (o : byte_order) : bool :=
  (sizeof_uint64 =? sizeof_state_struct) &&
  (sizeof_uint64 =? sizeof_state_union) &&
  (shift (struct_load o (store_int o 8 0x0123456789abcdef)) =? 0x89abcdef).

(** The first branch: the byte generator runs directly on the register's
    bytes; every member is read from the bytes the register holds. *)

Definition combined_overlay (o : byte_order) (r : Z) : Z * Z :=
  let m := store_int o 8 r in
  let (result, s') := libsrng_stable_random (struct_load o m) in
  (result, load_int o (struct_store o s')).

(** The second branch: explicit unpacking and repacking. *)

Definition unpack_state (r : Z) : libsrng_stable_random_state :=
  mk_state (u32 r) (u8 (Z.shiftr r 32)) (u8 (Z.shiftr r 40))
           (u8 (Z.shiftr r 48)) (u8 (Z.shiftr r 56)).

Definition pack_state (t : libsrng_stable_random_state) : Z :=
  Z.lor (Z.lor (Z.lor (Z.lor (u64 (shift t))
                             (u64 (Z.shiftl (u64 (carry t)) 32)))
                      (u64 (Z.shiftl (u64 (current t)) 40)))
               (u64 (Z.shiftl (u64 (prev t)) 48)))
        (u64 (Z.shiftl (u64 (linear t)) 56)).

Definition combined_portable (r : Z) : Z * Z :=
  let temp_state := unpack_state r in
  let (result, t) := libsrng_stable_random temp_state in
  (result, pack_state t).

Definition libsrng_random_combined (o : byte_order) (r : Z) : Z * Z :=
  if overlay_condition o then combined_overlay o r else combined_portable r.

(** ** The 16-bit generator, the seed generator and the public entry *)

Definition libsrng_random_linear (previous : Z) : Z :=
  Z.land (previous * HALFWORD_LCG_MULTIPLIER + HALFWORD_LCG_ADDEND) 0xffff.

Definition switch_trigger_states : list Z :=
  [SWITCH_TRIGGER_STATE_0; SWITCH_TRIGGER_STATE_1; SWITCH_TRIGGER_STATE_2;
   SWITCH_TRIGGER_STATE_0].

(** [for (count = 0; count < 3; count++)
       if (state[0] == switch_trigger_states[count]) { ...; break; }] *)

Fixpoint switch_trigger_loop (n count : nat) (r : Z) : Z :=
  match n with
  | O => r
  | S n' =>
      if r =? at_index switch_trigger_states count
      then at_index switch_trigger_states (count + 1)
      else switch_trigger_loop n' (count + 1) r
  end.

Definition switch_trigger (r : Z) : Z := switch_trigger_loop 3 0 r.

(** [while (count--) buffer = libsrng_random_linear(buffer);] *)

Fixpoint whiten (count : nat) (buffer : Z) : Z :=
  match count with
  | O => buffer
  | S c => whiten c (libsrng_random_linear buffer)
  end.

Section Platform.

(** The byte order of the machine the library is compiled for. *)
Variable o : byte_order.

(** [while (width--) result = (result << 8) | libsrng_random_combined(state);] *)

Fixpoint multibyte_loop (width : nat) (result r : Z) : Z * Z :=
  match width with
  | O => (result, r)
  | S w =>
      let (b, r') := libsrng_random_combined o r in
      multibyte_loop w (Z.lor (u64 (Z.shiftl result 8)) b) r'
  end.

Definition libsrng_random_combined_multibyte (r : Z) (width : Z) : Z * Z :=
  if width >? sizeof_uint64 then (u64 (-1), r)
  else multibyte_loop (Z.to_nat width) 0 r.

Section Callers.

(** The multibyte assembler the callers below are linked against; the
    library links them against [libsrng_random_combined_multibyte]. *)
Variable assemble : Z -> Z -> Z * Z.

(** The body of [libsrng_random_halfword] after the trigger loop. *)

Definition halfword_draw (r0 : Z) : Z * Z :=
  let (a, r1) := assemble r0 2 in
  let buffer := u16 a in
  let (count, r2) := libsrng_random_combined o r1 in
  let shift := u8 (Z.shiftr count 4) in
  let multiplier := u8 (3 + Z.shiftr (Z.land count 12) 1) in
  let count := u8 (Z.land count 3 + 2) in
  let buffer := whiten (Z.to_nat count) buffer in
  let buffer :=
    if shift =? 0 then buffer
    else u16 (Z.lor (Z.shiftl buffer shift) (Z.shiftr buffer (16 - shift))) in
  (Z.land (buffer * multiplier) 0xffff, r2).

Definition halfword_via (r : Z) : Z * Z :=
  halfword_draw (switch_trigger r).

(** [for (count = 0; count < 4; count++)
       second = (second << 16) + libsrng_random_halfword(state);] *)

Fixpoint seed_halfwords (n : nat) (second r : Z) : Z * Z :=
  match n with
  | O => (second, r)
  | S n' =>
      let (h, r') := halfword_via r in
      seed_halfwords n' (u64 (u64 (Z.shiftl second 16) + h)) r'
  end.

(** The value returned is the new register; the register the function
    was advancing is overwritten by the caller. *)

Definition seed_via (r : Z) : Z :=
  let (first, r1) := assemble r 8 in
  let first := u64 (first * SEED_LCG_MULTIPLIER + SEED_LCG_FIRST_ADDEND) in
  let (second, _) := seed_halfwords 4 0 r1 in
  let second := u64 (second * SEED_LCG_MULTIPLIER + SEED_LCG_SECOND_ADDEND) in
  Z.lxor first second.

(** [while (result < resampling_limit) result = libsrng_random_halfword(state);]
    [fuel] bounds the number of redraws; [None] means the bound was
    reached with the loop still running. *)

Fixpoint resample (fuel : nat) (resampling_limit result r : Z) : option (Z * Z) :=
  if result <? resampling_limit then
    match fuel with
    | O => None
    | S f =>
        let (h, r') := halfword_via r in
        resample f resampling_limit h r'
    end
  else Some (result, r).

Definition range_via (fuel : nat) (r : Z) (limit : Z) : option (Z * Z) :=
  if limit =? 1 then Some (0, r)
  else
    let (result, r1) := halfword_via r in
    if Z.land limit (limit - 1) =? 0 then Some (u16 (Z.land result (limit - 1)), r1)
    else if result >=? limit then Some (result mod limit, r1)
    else
      let resampling_limit := u16 (0x10000 mod limit) in
      match resample fuel resampling_limit result r1 with
      | Some (result', r2) => Some (result' mod limit, r2)
      | None => None
      end.

(** [while (reseed--) state[0] = libsrng_random_seed(state);]
    Each iteration runs on the register the previous one stored.  For the
    build in which the in-place branch does not read [shift] back after the
    store, see [Aliasing.reseed_loop]. *)

Fixpoint reseed_loop (reseed : nat) (r : Z) : Z :=
  match reseed with
  | O => r
  | S n => reseed_loop n (seed_via r)
  end.

(** The pointer is [None] when null and [Some r] when it points to a
    register holding [r]; the second component of the result is the
    register after the call. *)

Definition random_via (fuel : nat) (state : option Z) (range : Z) (reseed : nat)
  : option (Z * option Z) :=
  match state with
  | None => Some (0, None)
  | Some r =>
      match range_via fuel (reseed_loop reseed r) range with
      | Some (result, r') => Some (result, Some r')
      | None => None
      end
  end.

End Callers.

Definition libsrng_random_halfword : Z -> Z * Z :=
  halfword_via libsrng_random_combined_multibyte.

(** The first [n] values a caller gets from successive calls of
    [libsrng_random_halfword] on the register. *)

Fixpoint halfword_draws (n : nat) (r : Z) : list Z :=
  match n with
  | O => []
  | S n' =>
      let (h, r') := libsrng_random_halfword r in
      h :: halfword_draws n' r'
  end.
Definition libsrng_random_seed : Z -> Z :=
  seed_via libsrng_random_combined_multibyte.
Definition libsrng_random_range : nat -> Z -> Z -> option (Z * Z) :=
  range_via libsrng_random_combined_multibyte.
Definition libsrng_random : nat -> option Z -> Z -> nat -> option (Z * option Z) :=
  random_via libsrng_random_combined_multibyte.

End Platform.

(** The byte fields of a sub-state hold values of their C type. *)

Definition bytes_wf (s : libsrng_stable_random_state) : Prop :=
  0 <= carry s < 2 ^ 8 /\ 0 <= current s < 2 ^ 8 /\
  0 <= prev s < 2 ^ 8 /\ 0 <= linear s < 2 ^ 8.

(** The triple of the base-210 generator, in the order the tables of
    [libsrng_stable_random] list it, and the [k]-th triple of [short_cycles]. *)

Definition generator_triple (s : libsrng_stable_random_state) : Z * Z * Z :=
  (prev s, current s, carry s).

Definition short_cycle_triple (k : nat) : Z * Z * Z :=
  (at_index short_cycles (3 * k), at_index short_cycles (3 * k + 1),
   at_index short_cycles (3 * k + 2)).

(** The value [STABLE_RANDOM_NEXT_LINEAR] leaves in [linear], as a function of
    the value it finds there, and a check that the next [n] values starting
    at [x] all differ from [l]. *)

Definition next_linear_value (l : Z) : Z := u8 (u8 (l * 73) + 29).

Fixpoint orbit_avoids (n : nat) (x l : Z) : bool :=
  match n with
  | O => true
  | S n' => negb (x =? l) && orbit_avoids n' (next_linear_value x) l
  end.

(** ** The tail of the 16-bit generator

    What [libsrng_random_halfword] does with the assembled [buffer] once the
    control byte [count] is drawn: decode the rotation, the multiplier and
    the number of whitening rounds, then whiten, rotate and multiply. *)

Definition halfword_finish (count buffer : Z) : Z :=
  let shift := u8 (Z.shiftr count 4) in
  let multiplier := u8 (3 + Z.shiftr (Z.land count 12) 1) in
  let count := u8 (Z.land count 3 + 2) in
  let buffer := whiten (Z.to_nat count) buffer in
  let buffer :=
    if shift =? 0 then buffer
    else u16 (Z.lor (Z.shiftl buffer shift) (Z.shiftr buffer (16 - shift))) in
  Z.land (buffer * multiplier) 0xffff.

(** ** The variant of the byte generator without the escape loops

    The repository also carries a version of the library whose
    [libsrng_stable_random] has neither the splice loop nor the start-up
    loop; the other statements are the same. *)

Module Plain.

Definition libsrng_stable_random (s : libsrng_stable_random_state)
  : Z * libsrng_stable_random_state :=
  let s' :=
    STABLE_RANDOM_NEXT_LINEAR
      (generator_step
         (fixed_point_escape
            (normalize_carry
               (scramble
                  (lazy_init s))))) in
  (stable_combine s', s').

End Plain.

(** ** The reseed loop in a build that uses the aliasing rule

    The loop of [libsrng_random] stores each new register through the
    [uint64_t] lvalue ([state[0] = libsrng_random_seed(state)], line 42),
    and the in-place branch of [libsrng_random_combined] then reads
    [state->shift] through an lvalue of type [uint32_t] (lines 60-61 and
    110-113).  A compiler may take the two lvalues not to alias.  With the
    callees inlined into the loop, an optimising little-endian build keeps
    [state->shift] in a machine register from one iteration to the next:
    the iteration after a store runs on the [shift] the previous
    [libsrng_random_seed] call left behind, while the four byte members
    (character type) are read from the register just stored.  After the
    loop the register is read from memory again.  On a machine where the
    compile-time test fails only the [uint64_t] lvalue is used and nothing
    of this applies. *)

Module Aliasing.

(** The register as [libsrng_random_seed] leaves it when it returns, before
    the caller overwrites it with the returned value. *)

Definition seed_leaves (o : byte_order) (r : Z) : Z :=
  let (_, r1) := libsrng_random_combined_multibyte o r 8 in
  snd (seed_halfwords o (libsrng_random_combined_multibyte o) 4 0 r1).

(** The in-place branch when the read of [state->shift] yields [seen_shift]
    and the byte members are read from the register [r]. *)

Definition combined_overlay (o : byte_order) (seen_shift r : Z) : Z * Z :=
  let s := struct_load o (store_int o 8 r) in
  let (result, s') :=
    libsrng_stable_random
      (mk_state seen_shift (carry s) (current s) (prev s) (linear s)) in
  (result, load_int o (struct_store o s')).

(** The register whose members are the ones the in-place branch sees: bits
    32-63 of the register in memory and [seen_shift] in bits 0-31. *)

Definition seen_register (mem seen_shift : Z) : Z :=
  Z.lor (Z.shiftl (Z.shiftr mem 32) 32) (u32 seen_shift).

(** The loop at line 42.  [mem] is the register in memory and [seen_shift]
    the value a read of [state->shift] yields. *)

Fixpoint reseed_loop (o : byte_order) (reseed : nat) (mem seen_shift : Z) : Z * Z :=
  match reseed with
  | O => (mem, seen_shift)
  | S n =>
      let seen := seen_register mem seen_shift in
      let new := libsrng_random_seed o seen in
      reseed_loop o n new
        (if overlay_condition o then u32 (seed_leaves o seen) else u32 new)
  end.

Definition libsrng_random (o : byte_order) (fuel : nat) (state : option Z)
  (range : Z) (reseed : nat) : option (Z * option Z) :=
  match state with
  | None => Some (0, None)
  | Some r =>
      match libsrng_random_range o fuel (fst (reseed_loop o reseed r (u32 r))) range with
      | Some (result, r') => Some (result, Some r')
      | None => None
      end
  end.

End Aliasing.

(** ** Statements the properties below are compared with *)

(** The reading of the final combine that takes the offset from bits 3-4 of
    [linear] and the operator from the two bits after them: the returned byte
    would then be determined by [shift], [current] and bits 3-6 of [linear]. *)

Definition combine_selected_by_bits_3_to_6 : Prop :=
  forall s1 s2,
    shift (stable_advance s1) = shift (stable_advance s2) ->
    current (stable_advance s1) = current (stable_advance s2) ->
    Z.land (Z.shiftr (linear (stable_advance s1)) 3) 15 =
    Z.land (Z.shiftr (linear (stable_advance s2)) 3) 15 ->
    fst (libsrng_stable_random s1) = fst (libsrng_stable_random s2).

(** The statement that every power-of-two limit, 1 included, gives the
    masked 16-bit draw and advances the register by one
    [libsrng_random_halfword] call. *)

Definition power_of_two_exactness : Prop :=
  forall o fuel r k, 0 <= k <= 15 ->
    libsrng_random o fuel (Some r) (2 ^ k) 0 =
      Some (Z.land (fst (libsrng_random_halfword o r)) (2 ^ k - 1),
            Some (snd (libsrng_random_halfword o r))).

(** The statement that returning 0 with the register unmodified happens
    exactly for the null pointer. *)

Definition zero_unmodified_iff_null : Prop :=
  forall o fuel state range reseed,
    libsrng_random o fuel state range reseed = Some (0, state) <-> state = None.

(** * Properties *)

(** ** Integer facts *)

Lemma u8_range x : 0 <= u8 x < 2 ^ 8.
Proof. unfold u8. apply Z.mod_pos_bound. reflexivity. Qed.


Lemma u32_range x : 0 <= u32 x < 2 ^ 32.
Proof. unfold u32. apply Z.mod_pos_bound. reflexivity. Qed.



Lemma u32_small x : 0 <= x < 2 ^ 32 -> u32 x = x.
Proof. intros H. unfold u32. now apply Z.mod_small. Qed.

Lemma u64_small x : 0 <= x < 2 ^ 64 -> u64 x = x.
Proof. intros H. unfold u64. now apply Z.mod_small. Qed.

(** Bitwise operations stay below a power of two their arguments are below. *)

Lemma below_pow2_bits n a :
  0 <= n -> 0 <= a ->
  (a < 2 ^ n <-> forall i, n <= i -> Z.testbit a i = false).
Proof.
  intros Hn Ha. split.
  - intros Hlt i Hi.
    rewrite <- (Z.mod_small a (2 ^ n)) by lia.
    apply Z.mod_pow2_bits_high. lia.
  - intros Hbits.
    assert (E : a mod 2 ^ n = a).
    { apply Z.bits_inj'. intros i Hi.
      destruct (Z.lt_ge_cases i n) as [Hlt | Hge].
      + now apply Z.mod_pow2_bits_low.
      + rewrite Z.mod_pow2_bits_high by lia. symmetry. now apply Hbits. }
    rewrite <- E. apply Z.mod_pos_bound. now apply Z.pow_pos_nonneg.
Qed.

Lemma lxor_below n a b :
  0 <= n -> 0 <= a < 2 ^ n -> 0 <= b < 2 ^ n -> 0 <= Z.lxor a b < 2 ^ n.
Proof.
  intros Hn Ha Hb.
  assert (H0 : 0 <= Z.lxor a b) by (apply Z.lxor_nonneg; lia).
  split; [exact H0|].
  apply (below_pow2_bits n); try lia.
  intros i Hi. rewrite Z.lxor_spec.
  rewrite (proj1 (below_pow2_bits n a Hn (proj1 Ha)) (proj2 Ha) i Hi).
  rewrite (proj1 (below_pow2_bits n b Hn (proj1 Hb)) (proj2 Hb) i Hi).
  reflexivity.
Qed.


Lemma shiftr_below n a k :
  0 <= k -> 0 <= a < 2 ^ n -> 0 <= Z.shiftr a k < 2 ^ n.
Proof.
  intros Hk Ha. rewrite Z.shiftr_div_pow2 by exact Hk.
  assert (0 < 2 ^ k) by (apply Z.pow_pos_nonneg; lia).
  split.
  - apply Z.div_pos; lia.
  - apply Z.le_lt_trans with a; [|lia].
    apply Z.div_le_upper_bound; nia.
Qed.

(** A bounded universal statement over [Z] decided by enumeration. *)

Lemma forall_below (f : Z -> bool) (n : nat) :
  forallb f (map Z.of_nat (seq 0 n)) = true ->
  forall x, 0 <= x < Z.of_nat n -> f x = true.
Proof.
  intros H x Hx. rewrite forallb_forall in H. apply H.
  apply in_map_iff. exists (Z.to_nat x). split.
  - apply Z2Nat.id. lia.
  - apply in_seq. lia.
Qed.

(** ** The byte generator *)

Ltac fields :=
  cbn [shift carry current prev linear
       set_shift set_carry set_current set_prev set_linear
       STABLE_RANDOM_NEXT_LINEAR] in *.


Lemma shift_next_linear s : shift (STABLE_RANDOM_NEXT_LINEAR s) = shift s.
Proof. reflexivity. Qed.






(** Each xorshift assignment keeps a non-zero 32-bit value non-zero. *)

Lemma xor_shiftr_nonzero x k :
  0 < k -> 0 < x < 2 ^ 32 -> 0 < u32 (Z.lxor x (Z.shiftr x k)) < 2 ^ 32.
Proof.
  intros Hk Hx.
  assert (Hb : 0 <= Z.lxor x (Z.shiftr x k) < 2 ^ 32).
  { apply lxor_below; try lia. apply shiftr_below; lia. }
  rewrite (u32_small _ Hb).
  assert (Hne : Z.lxor x (Z.shiftr x k) <> 0).
  { intros E. apply Z.lxor_eq in E.
    rewrite Z.shiftr_div_pow2 in E by lia.
    assert (H2 : 2 <= 2 ^ k).
    { change 2 with (2 ^ 1) at 1. apply Z.pow_le_mono_r; lia. }
    assert (x / 2 ^ k < x) by (apply Z.div_lt; lia).
    lia. }
  lia.
Qed.

Lemma xor_shiftl_nonzero x :
  0 < x < 2 ^ 32 -> 0 < u32 (Z.lxor x (u32 (Z.shiftl x 9))) < 2 ^ 32.
Proof.
  intros Hx.
  assert (Hb : 0 <= Z.lxor x (u32 (Z.shiftl x 9)) < 2 ^ 32).
  { apply lxor_below; try lia. apply u32_range. }
  rewrite (u32_small _ Hb).
  assert (Hne : Z.lxor x (u32 (Z.shiftl x 9)) <> 0).
  { intros E. apply Z.lxor_eq in E.
    unfold u32 in E. rewrite Z.shiftl_mul_pow2 in E by lia.
    assert (D : (2 ^ 32 | 511 * x)).
    { exists (x * 2 ^ 9 / 2 ^ 32).
      pose proof (Z.div_mod (x * 2 ^ 9) (2 ^ 32)) as Hdm.
      change (2 ^ 9) with 512 in *. lia. }
    apply Z.gauss in D; [|reflexivity].
    destruct D as [q Hq]. nia. }
  lia.
Qed.


(** The steps after the scramble do not write [shift]. *)

Lemma shift_splice_loop n : forall p s, shift (splice_loop n p s) = shift s.
Proof.
  induction n as [|n IH]; intros p s; [reflexivity|].
  cbn [splice_loop]. destruct (_ && _); [reflexivity|apply IH].
Qed.

Lemma shift_start_loop n : forall p s, shift (start_loop n p s) = shift s.
Proof.
  induction n as [|n IH]; intros p s; [reflexivity|].
  cbn [start_loop]. destruct (carry s =? _); [|apply IH].
  destruct (carry _ =? 0); reflexivity.
Qed.

Lemma shift_cycle_escape s : shift (cycle_escape s) = shift s.
Proof.
  unfold cycle_escape. destruct (_ || _);
    [apply shift_splice_loop|apply shift_start_loop].
Qed.

Lemma shift_normalize_carry s : shift (normalize_carry s) = shift s.
Proof. unfold normalize_carry. destruct (carry s >=? 210); reflexivity. Qed.

Lemma shift_fixed_point_escape s : shift (fixed_point_escape s) = shift s.
Proof. unfold fixed_point_escape. destruct (_ || _); reflexivity. Qed.

Lemma shift_stable_advance s :
  shift (stable_advance s) = u32 (xorshift_triple (shift (lazy_init s))).
Proof.
  unfold stable_advance.
  rewrite shift_next_linear. unfold generator_step. fields.
  rewrite shift_fixed_point_escape, shift_normalize_carry, shift_cycle_escape.
  reflexivity.
Qed.

Lemma stable_advance_wf s : state_wf (stable_advance s).
Proof.
  unfold state_wf. rewrite shift_stable_advance.
  unfold stable_advance, generator_step. fields.
  repeat split; try apply u8_range; try apply u32_range;
    try (apply Z.mod_pos_bound; reflexivity).
Qed.


Lemma u8_u32 x : u8 (u32 x) = u8 x.
Proof.
  unfold u8, u32. apply Z.mod_mod_divide.
  exists (2 ^ 24). reflexivity.
Qed.

Lemma land_255 x : Z.land x 0xff = x mod 2 ^ 8.
Proof. change 0xff with (Z.ones 8). apply Z.land_ones. lia. Qed.

Lemma land_65535 x : Z.land x 0xffff = x mod 2 ^ 16.
Proof. change 0xffff with (Z.ones 16). apply Z.land_ones. lia. Qed.

Lemma u8_lxor x c : 0 <= c < 2 ^ 8 -> u8 (Z.lxor x c) = Z.lxor (Z.land x 0xff) c.
Proof.
  intros Hc. unfold u8. rewrite <- land_255.
  apply Z.bits_inj'. intros i Hi.
  rewrite Z.land_spec, !Z.lxor_spec, Z.land_spec.
  change 0xff with (Z.ones 8).
  destruct (Z.lt_ge_cases i 8) as [Hlt | Hge].
  - rewrite Z.ones_spec_low by lia. now rewrite !andb_true_r.
  - rewrite Z.ones_spec_high by lia. rewrite !andb_false_r.
    rewrite (proj1 (below_pow2_bits 8 c ltac:(lia) (proj1 Hc)) (proj2 Hc) i Hge).
    reflexivity.
Qed.

Lemma combine_offset_bits_6_7 l :
  0 <= l < 2 ^ 8 -> combine_offset l = 8 * Z.shiftr l 6.
Proof.
  intros Hl.
  pose proof (forall_below (fun x => combine_offset x =? 8 * Z.shiftr x 6) 256) as H.
  cbv beta in H. specialize (H ltac:(vm_compute; reflexivity) l Hl).
  now apply Z.eqb_eq in H.
Qed.

Lemma shiftr_6_range l : 0 <= l < 2 ^ 8 -> 0 <= Z.shiftr l 6 < 4.
Proof.
  intros Hl. rewrite Z.shiftr_div_pow2 by lia. change (2 ^ 6) with 64.
  change (2 ^ 8) with 256 in Hl.
  split; [apply Z.div_pos; lia | apply Z.div_lt_upper_bound; lia].
Qed.

(** C4, as stated, fails: two sub-states that reach the combine step with
    the same [shift], the same [current] and the same bits 3-6 of [linear]
    (they differ in bit 7 only) return different bytes, so neither the
    offset nor the operator is selected by bits 3-4 and the two bits after
    them. *)
Lemma combine_not_selected_by_bits_3_to_6 : ~ combine_selected_by_bits_3_to_6.
Proof.
  intros H.
  specialize (H (mk_state 0x12345678 1 1 1 0x5b) (mk_state 0x12345678 1 1 1 0xdb)).
  vm_compute in H.
  specialize (H eq_refl eq_refl eq_refl). discriminate H.
Qed.

(** C4, amended: in the final combine of [libsrng_stable_random] the byte of
    [shift] is taken at offset 8 times bits 6-7 of [linear] (one of 0, 8, 16,
    24), the operator is selected by bits 4-5 of [linear] (0 add, 1 XOR,
    2 subtract [current] from the byte, 3 subtract the byte from [current]),
    and the result is the combination truncated to 8 bits. *)
Theorem stable_random_combine (s : libsrng_stable_random_state) :
  let t := stable_advance s in
  let offset := 8 * Z.shiftr (linear t) 6 in
  let extracted := Z.land (Z.shiftr (shift t) offset) 0xff in
  In offset [0; 8; 16; 24] /\
  libsrng_stable_random s =
    (match Z.land (Z.shiftr (linear t) 4) 3 with
     | 0 => (extracted + current t) mod 2 ^ 8
     | 1 => Z.lxor extracted (current t)
     | 2 => (extracted - current t) mod 2 ^ 8
     | _ => (current t - extracted) mod 2 ^ 8
     end, t).
Proof.
  intros t offset extracted.
  destruct (stable_advance_wf s) as (Hsh & Hca & Hcu & Hpr & Hli).
  fold t in Hsh, Hca, Hcu, Hpr, Hli.
  split.
  - pose proof (shiftr_6_range (linear t) Hli) as Hr. subst offset.
    assert (Hc : Z.shiftr (linear t) 6 = 0 \/ Z.shiftr (linear t) 6 = 1 \/
                 Z.shiftr (linear t) 6 = 2 \/ Z.shiftr (linear t) 6 = 3) by lia.
    destruct Hc as [E | [E | [E | E]]]; rewrite E; cbn; auto.
  - unfold libsrng_stable_random. fold t. f_equal.
    unfold stable_combine, combine_selector.
    rewrite (combine_offset_bits_6_7 (linear t) Hli). fold offset.
    subst extracted. rewrite land_255.
    destruct (Z.land (Z.shiftr (linear t) 4) 3) as [|[p|p|]|p];
      rewrite ?u8_u32; unfold u8.
    + now rewrite Z.add_mod_idemp_l by lia.
    + now rewrite Zminus_mod_idemp_r.
    + destruct p; now rewrite ?Zminus_mod_idemp_r, ?Zminus_mod_idemp_l.
    + fold (u8 (Z.lxor (Z.shiftr (shift t) offset) (current t))).
      rewrite (u8_lxor _ _ Hcu), land_255. reflexivity.
    + now rewrite Zminus_mod_idemp_r.
Qed.



(** ** The byte adapter *)

Lemma lor_shifted_add n a b :
  0 <= n -> 0 <= a < 2 ^ n -> 0 <= b -> Z.lor a (b * 2 ^ n) = a + b * 2 ^ n.
Proof.
  intros Hn Ha Hb. rewrite <- Z.add_lor_land.
  assert (E : Z.land a (b * 2 ^ n) = 0).
  { apply Z.bits_inj'. intros i Hi.
    rewrite Z.land_spec, Z.bits_0.
    destruct (Z.lt_ge_cases i n) as [Hlt | Hge].
    - rewrite Z.mul_pow2_bits_low by lia. apply andb_false_r.
    - rewrite (proj1 (below_pow2_bits n a Hn (proj1 Ha)) (proj2 Ha) i Hge).
      reflexivity. }
  rewrite E. lia.
Qed.

Lemma struct_load_store_le r :
  struct_load LittleEndian (store_int LittleEndian 8 r) = unpack_state r.
Proof.
  unfold struct_load, unpack_state, store_int, load_int, at_index.
  cbn [store_le firstn load_le nth].
  unfold u32, u8. rewrite !Z.shiftr_div_pow2 by lia.
  change (2 ^ 32) with 4294967296. change (2 ^ 40) with 1099511627776.
  change (2 ^ 48) with 281474976710656. change (2 ^ 56) with 72057594037927936.
  change (2 ^ 8) with 256.
  f_equal; Z.div_mod_to_equations; lia.
Qed.

Lemma load_struct_store_le t :
  state_wf t -> load_int LittleEndian (struct_store LittleEndian t) = pack_state t.
Proof.
  intros (Hsh & Hca & Hcu & Hpr & Hli).
  unfold struct_store, pack_state, store_int, load_int.
  cbn [store_le app load_le].
  change (2 ^ 32) with 4294967296 in Hsh. change (2 ^ 8) with 256 in Hca, Hcu, Hpr, Hli.
  assert (Hsmall : forall x k, 0 <= x < 256 -> 0 <= k <= 56 -> u64 (x * 2 ^ k) = x * 2 ^ k).
  { intros x k Hx Hk. apply u64_small.
    assert (0 < 2 ^ k) by (apply Z.pow_pos_nonneg; lia).
    assert (2 ^ k <= 2 ^ 56) by (apply Z.pow_le_mono_r; lia).
    change (2 ^ 64) with (256 * 2 ^ 56). nia. }
  rewrite (u64_small (shift t)), (u64_small (carry t)), (u64_small (current t)),
    (u64_small (prev t)), (u64_small (linear t))
    by (change (2 ^ 64) with 18446744073709551616; lia).
  rewrite !Z.shiftl_mul_pow2 by lia.
  rewrite !Hsmall by lia.
  rewrite (lor_shifted_add 32) by lia.
  rewrite (lor_shifted_add 40)
    by (change (2 ^ 40) with 1099511627776; change (2 ^ 32) with 4294967296; lia).
  rewrite (lor_shifted_add 48)
    by (change (2 ^ 48) with 281474976710656; change (2 ^ 40) with 1099511627776;
        change (2 ^ 32) with 4294967296; lia).
  rewrite (lor_shifted_add 56)
    by (change (2 ^ 56) with 72057594037927936;
        change (2 ^ 48) with 281474976710656; change (2 ^ 40) with 1099511627776;
        change (2 ^ 32) with 4294967296; lia).
  change (2 ^ 32) with 4294967296. change (2 ^ 40) with 1099511627776.
  change (2 ^ 48) with 281474976710656. change (2 ^ 56) with 72057594037927936.
  Z.div_mod_to_equations. lia.
Qed.

Lemma overlay_condition_little : overlay_condition LittleEndian = true.
Proof. vm_compute. reflexivity. Qed.

Lemma overlay_condition_big : overlay_condition BigEndian = false.
Proof. vm_compute. reflexivity. Qed.

(** When every member is read from the bytes the register holds and the
    compile-time test selects the in-place branch, that branch and the
    explicit bit-packing branch return the same byte and leave the same
    register: the test does establish the field mapping [shift] = bits 0-31,
    [carry] = bits 32-39, [current] = bits 40-47, [prev] = bits 48-55,
    [linear] = bits 56-63. *)
Lemma combined_overlay_portable (o : byte_order) (r : Z) :
  overlay_condition o = true ->
  combined_overlay o r = combined_portable r.
Proof.
  intros Hc. destruct o.
  - unfold combined_overlay, combined_portable.
    rewrite struct_load_store_le.
    unfold libsrng_stable_random.
    rewrite load_struct_store_le by apply stable_advance_wf.
    reflexivity.
  - rewrite overlay_condition_big in Hc. discriminate Hc.
Qed.

Lemma combined_overlay_portable_witness :
  overlay_condition LittleEndian = true /\
  combined_overlay LittleEndian 0x0123456789abcdef =
  combined_portable 0x0123456789abcdef.
Proof.
  split; [reflexivity|].
  apply (combined_overlay_portable LittleEndian 0x0123456789abcdef).
  reflexivity.
Defined.

(** The test is needed: on the big-endian representation the in-place
    branch, were it taken, would not agree with the bit-packing branch. *)

Remark overlay_differs_big_endian :
  combined_overlay BigEndian 1 <> combined_portable 1.
Proof. vm_compute. discriminate. Qed.

(** On either machine the adapter is the explicit bit-packing formula, so
    the generator's output does not depend on the byte order. *)

Lemma random_combined_portable o r :
  libsrng_random_combined o r = combined_portable r.
Proof.
  unfold libsrng_random_combined. destruct o.
  - rewrite overlay_condition_little.
    unfold combined_overlay, combined_portable.
    rewrite struct_load_store_le.
    unfold libsrng_stable_random.
    rewrite load_struct_store_le by apply stable_advance_wf.
    reflexivity.
  - rewrite overlay_condition_big. reflexivity.
Qed.

(** ** The 16-bit generator *)

Lemma halfword_draw_range o assemble r :
  0 <= fst (halfword_draw o assemble r) < 2 ^ 16.
Proof.
  unfold halfword_draw.
  destruct (assemble r 2) as [a r1].
  destruct (libsrng_random_combined o r1) as [count r2].
  cbn [fst]. rewrite land_65535. apply Z.mod_pos_bound. reflexivity.
Qed.

Lemma random_halfword_range o r :
  0 <= fst (libsrng_random_halfword o r) < 2 ^ 16.
Proof. apply halfword_draw_range. Qed.

(** C7: at the start of [libsrng_random_halfword] a register equal to one
    of the three flagged constants is replaced by the next one (the third by
    the first) and every other register is left as it is; the bytes are then
    drawn from the register so obtained. *)
Theorem halfword_switch_trigger (o : byte_order) (r : Z) :
  libsrng_random_halfword o r =
    halfword_draw o (libsrng_random_combined_multibyte o) (switch_trigger r) /\
  (r = SWITCH_TRIGGER_STATE_0 -> switch_trigger r = SWITCH_TRIGGER_STATE_1) /\
  (r = SWITCH_TRIGGER_STATE_1 -> switch_trigger r = SWITCH_TRIGGER_STATE_2) /\
  (r = SWITCH_TRIGGER_STATE_2 -> switch_trigger r = SWITCH_TRIGGER_STATE_0) /\
  (r <> SWITCH_TRIGGER_STATE_0 -> r <> SWITCH_TRIGGER_STATE_1 ->
   r <> SWITCH_TRIGGER_STATE_2 -> switch_trigger r = r).
Proof.
  split; [reflexivity|].
  repeat split.
  - intros ->. reflexivity.
  - intros ->. reflexivity.
  - intros ->. reflexivity.
  - intros H0 H1 H2. unfold switch_trigger.
    cbn [switch_trigger_loop switch_trigger_states at_index nth Nat.add].
    apply Z.eqb_neq in H0, H1, H2. now rewrite H0, H1, H2.
Qed.

Lemma halfword_switch_trigger_witness :
  switch_trigger SWITCH_TRIGGER_STATE_2 = SWITCH_TRIGGER_STATE_0 /\
  (0 <> SWITCH_TRIGGER_STATE_0 /\ 0 <> SWITCH_TRIGGER_STATE_1 /\
   0 <> SWITCH_TRIGGER_STATE_2) /\
  switch_trigger 0 = 0.
Proof.
  split; [|split].
  - apply (halfword_switch_trigger LittleEndian SWITCH_TRIGGER_STATE_2).
    reflexivity.
  - repeat split; discriminate.
  - apply (halfword_switch_trigger LittleEndian 0); discriminate.
Defined.

(** ** The multibyte assembler and its callers *)

Section Linking.

Variable o : byte_order.
Variables assemble assemble' : Z -> Z -> Z * Z.
Hypothesis agree_2 : forall r, assemble r 2 = assemble' r 2.
Hypothesis agree_8 : forall r, assemble r 8 = assemble' r 8.

Lemma halfword_via_linked r : halfword_via o assemble r = halfword_via o assemble' r.
Proof. unfold halfword_via, halfword_draw. now rewrite agree_2. Qed.

Lemma seed_halfwords_linked n : forall second r,
  seed_halfwords o assemble n second r = seed_halfwords o assemble' n second r.
Proof.
  induction n as [|n IH]; intros second r; [reflexivity|].
  cbn [seed_halfwords]. rewrite halfword_via_linked.
  destruct (halfword_via o assemble' r). apply IH.
Qed.

Lemma seed_via_linked r : seed_via o assemble r = seed_via o assemble' r.
Proof.
  unfold seed_via. rewrite agree_8.
  destruct (assemble' r 8) as [first r1].
  now rewrite seed_halfwords_linked.
Qed.

Lemma resample_linked fuel : forall b h r,
  resample o assemble fuel b h r = resample o assemble' fuel b h r.
Proof.
  induction fuel as [|f IH]; intros b h r; [reflexivity|].
  cbn [resample]. rewrite halfword_via_linked.
  destruct (halfword_via o assemble' r). now rewrite IH.
Qed.

Lemma range_via_linked fuel r limit :
  range_via o assemble fuel r limit = range_via o assemble' fuel r limit.
Proof.
  unfold range_via. rewrite halfword_via_linked.
  destruct (halfword_via o assemble' r). now rewrite resample_linked.
Qed.

Lemma reseed_loop_linked n : forall r,
  reseed_loop o assemble n r = reseed_loop o assemble' n r.
Proof.
  induction n as [|n IH]; intros r; [reflexivity|].
  cbn [reseed_loop]. now rewrite seed_via_linked, IH.
Qed.

Lemma random_via_linked fuel state range reseed :
  random_via o assemble fuel state range reseed =
  random_via o assemble' fuel state range reseed.
Proof.
  unfold random_via. destruct state as [r|]; [|reflexivity].
  now rewrite reseed_loop_linked, range_via_linked.
Qed.

End Linking.

(** C10: for every width above 8 [libsrng_random_combined_multibyte]
    returns 2^64 - 1 and leaves the register as it was, drawing no byte; the
    public entry never reaches that branch: it behaves the same with any
    assembler that agrees with the library's on the widths 2, 1 and 8. *)
Theorem multibyte_defensive_branch (o : byte_order) :
  (forall r width, 8 < width ->
     libsrng_random_combined_multibyte o r width = (2 ^ 64 - 1, r)) /\
  (forall assemble : Z -> Z -> Z * Z,
     (forall r width, width = 2 \/ width = 1 \/ width = 8 ->
        assemble r width = libsrng_random_combined_multibyte o r width) ->
     forall fuel state range reseed,
       random_via o assemble fuel state range reseed =
       libsrng_random o fuel state range reseed).
Proof.
  split.
  - intros r width Hw. unfold libsrng_random_combined_multibyte, sizeof_uint64.
    destruct (Z.gtb_spec width 8) as [_|Hle]; [reflexivity|lia].
  - intros assemble Hag fuel state range reseed.
    unfold libsrng_random. apply random_via_linked; intros r; apply Hag; auto.
Qed.

Lemma multibyte_defensive_branch_witness :
  8 < 9 /\
  libsrng_random_combined_multibyte LittleEndian 5 9 = (2 ^ 64 - 1, 5) /\
  random_via LittleEndian
    (fun r width =>
       if width >? 8 then (0, 0)
       else libsrng_random_combined_multibyte LittleEndian r width)
    0 (Some 0) 16 1 =
  libsrng_random LittleEndian 0 (Some 0) 16 1.
Proof.
  split; [lia|]. split.
  - apply (proj1 (multibyte_defensive_branch LittleEndian)). lia.
  - apply (proj2 (multibyte_defensive_branch LittleEndian)).
    intros r width [-> | [-> | ->]]; reflexivity.
Defined.

(** ** The public entry *)

Lemma reseed_loop_iter o n : forall r,
  reseed_loop o (libsrng_random_combined_multibyte o) n r =
  Nat.iter n (libsrng_random_seed o) r.
Proof.
  induction n as [|n IH]; intros r; [reflexivity|].
  cbn [reseed_loop]. rewrite IH, Nat.iter_succ_r. reflexivity.
Qed.

Lemma random_reseed_range o fuel r range reseed :
  libsrng_random o fuel (Some r) range reseed =
    match libsrng_random_range o fuel
            (Nat.iter reseed (libsrng_random_seed o) r) range with
    | Some (result, r') => Some (result, Some r')
    | None => None
    end.
Proof.
  unfold libsrng_random, libsrng_random_range, random_via.
  rewrite reseed_loop_iter. reflexivity.
Qed.

Lemma land_le_r a b : 0 <= a -> 0 <= b -> Z.land a b <= b.
Proof.
  intros Ha Hb.
  rewrite <- (Z2N.id a Ha), <- (Z2N.id b Hb), <- N2Z.inj_land.
  apply N2Z.inj_le, N.land_le_r.
Qed.

Lemma land_pow2_pred k : 0 <= k -> Z.land (2 ^ k) (2 ^ k - 1) = 0.
Proof.
  intros Hk. change (2 ^ k - 1) with (Z.pred (2 ^ k)).
  rewrite <- Z.ones_equiv, Z.land_ones by lia.
  apply Z.mod_same. apply Z.pow_nonzero; lia.
Qed.

Lemma random_no_reseed o fuel r range :
  libsrng_random o fuel (Some r) range 0 =
    match libsrng_random_range o fuel r range with
    | Some (result, r') => Some (result, Some r')
    | None => None
    end.
Proof. reflexivity. Qed.

Lemma range_masked o fuel r limit :
  limit <> 1 -> Z.land limit (limit - 1) = 0 ->
  libsrng_random_range o fuel r limit =
    Some (u16 (Z.land (fst (libsrng_random_halfword o r)) (limit - 1)),
          snd (libsrng_random_halfword o r)).
Proof.
  intros H1 Hp. unfold libsrng_random_range, range_via.
  apply Z.eqb_neq in H1. rewrite H1.
  fold (libsrng_random_halfword o).
  destruct (libsrng_random_halfword o r) as [h r1].
  rewrite Hp. reflexivity.
Qed.

(** C3, as stated, fails at the power of two 1: the call returns 0 without
    drawing, so the register (here 0) is not advanced as one
    [libsrng_random_halfword] call would advance it. *)
Lemma limit_one_does_not_draw : ~ power_of_two_exactness.
Proof.
  intros H. specialize (H LittleEndian 0%nat 0 0 ltac:(lia)).
  vm_compute in H. discriminate H.
Qed.

(** C3, amended: with limit 0 the call returns the value of
    [libsrng_random_halfword] unchanged, and with a limit 2^k, 1 <= k <= 15,
    it returns that value masked by [limit - 1]; in both cases the register
    is left as one [libsrng_random_halfword] call leaves it.  With the
    power of two 1 the call returns 0 and leaves the register unchanged. *)
Theorem power_of_two_draw (o : byte_order) (fuel : nat) (r : Z) :
  libsrng_random o fuel (Some r) 0 0 =
    Some (fst (libsrng_random_halfword o r),
          Some (snd (libsrng_random_halfword o r))) /\
  (forall k, 1 <= k <= 15 ->
     libsrng_random o fuel (Some r) (2 ^ k) 0 =
       Some (Z.land (fst (libsrng_random_halfword o r)) (2 ^ k - 1),
             Some (snd (libsrng_random_halfword o r)))) /\
  libsrng_random o fuel (Some r) 1 0 = Some (0, Some r).
Proof.
  pose proof (random_halfword_range o r) as Hh.
  split; [|split; [|reflexivity]].
  - rewrite random_no_reseed, range_masked by (reflexivity || discriminate).
    change (0 - 1) with (-1). rewrite Z.land_m1_r.
    unfold u16. rewrite Z.mod_small by exact Hh. reflexivity.
  - intros k Hk.
    assert (H2 : 2 ^ 1 <= 2 ^ k) by (apply Z.pow_le_mono_r; lia).
    assert (H16 : 2 ^ k <= 2 ^ 15) by (apply Z.pow_le_mono_r; lia).
    change (2 ^ 1) with 2 in H2. change (2 ^ 15) with 32768 in H16.
    rewrite random_no_reseed, range_masked by (lia || apply land_pow2_pred; lia).
    pose proof (land_le_r (fst (libsrng_random_halfword o r)) (2 ^ k - 1)
                  ltac:(lia) ltac:(lia)) as Hle.
    assert (H0 : 0 <= Z.land (fst (libsrng_random_halfword o r)) (2 ^ k - 1))
      by (apply Z.land_nonneg; lia).
    unfold u16. rewrite Z.mod_small by (change (2 ^ 16) with 65536; lia).
    reflexivity.
Qed.

Lemma power_of_two_draw_witness :
  1 <= 4 <= 15 /\
  libsrng_random LittleEndian 0 (Some 0) (2 ^ 4) 0 =
    Some (Z.land (fst (libsrng_random_halfword LittleEndian 0)) (2 ^ 4 - 1),
          Some (snd (libsrng_random_halfword LittleEndian 0))).
Proof.
  split; [lia|].
  apply (proj1 (proj2 (power_of_two_draw LittleEndian 0 0))). lia.
Defined.

(** The redraw loop returns once a draw is not below the resampling limit. *)

Lemma resample_accepts o fuel : forall b h r,
  (b <= h \/ exists x, In x (halfword_draws o fuel r) /\ b <= x) ->
  exists v r', resample o (libsrng_random_combined_multibyte o) fuel b h r = Some (v, r').
Proof.
  induction fuel as [|f IH]; intros b h r Hacc.
  - cbn [resample]. destruct (Z.ltb_spec h b) as [Hlt|Hge]; [|eauto].
    destruct Hacc as [Hle | (x & [] & _)]. lia.
  - cbn [resample]. destruct (Z.ltb_spec h b) as [Hlt|Hge]; [|eauto].
    cbn [halfword_draws] in Hacc. fold (libsrng_random_halfword o).
    destruct (libsrng_random_halfword o r) as [h' r'].
    apply IH. destruct Hacc as [Hle | (x & [Hx | Hx] & Hbx)].
    + lia.
    + left. lia.
    + right. eauto.
Qed.

(** The call returns once a draw reaches the resampling limit. *)

Lemma random_returns_when_accepted o fuel r limit reseed :
  1 < limit < 2 ^ 16 ->
  (exists h,
     In h (halfword_draws o (S fuel) (Nat.iter reseed (libsrng_random_seed o) r)) /\
     0x10000 mod limit <= h) ->
  exists v st', libsrng_random o fuel (Some r) limit reseed = Some (v, st').
Proof.
  intros Hl.
  assert (Hbias : 0 <= 0x10000 mod limit < limit) by (apply Z.mod_pos_bound; lia).
  assert (Hu : u16 (0x10000 mod limit) = 0x10000 mod limit).
  { unfold u16. apply Z.mod_small. lia. }
  rewrite random_reseed_range.
  set (r0 := Nat.iter reseed (libsrng_random_seed o) r).
  unfold libsrng_random_range, range_via.
  destruct (limit =? 1); [eauto|].
  cbn [halfword_draws]. fold (libsrng_random_halfword o).
  destruct (libsrng_random_halfword o r0) as [h r1].
  destruct (Z.land limit (limit - 1) =? 0); [eauto|].
  destruct (h >=? limit); [eauto|].
  rewrite Hu. intros (x & Hin & Hx).
  destruct (resample_accepts o fuel (0x10000 mod limit) h r1) as (v & r2 & Hv).
  { destruct Hin as [<- | Hin]; [left; exact Hx | right; eauto]. }
  rewrite Hv. eauto.
Qed.

(** Returning 0 with the register unmodified does not tell the null
    pointer apart: with a non-null state, range 1 and no reseed the call
    also returns 0 and leaves the register unmodified. *)
Lemma zero_unmodified_without_null : ~ zero_unmodified_iff_null.
Proof.
  intros H.
  destruct (H LittleEndian 0%nat (Some 0) 1 0%nat) as [Hnull _].
  specialize (Hnull eq_refl). discriminate Hnull.
Qed.

(** * Further properties of the code *)

(** ** Invariants of the byte generator *)

Lemma lor_range n a b :
  0 <= n -> 0 <= a < 2 ^ n -> 0 <= b < 2 ^ n -> 0 <= Z.lor a b < 2 ^ n.
Proof.
  intros Hn Ha Hb.
  assert (H0 : 0 <= Z.lor a b) by (apply Z.lor_nonneg; lia).
  split; [exact H0|].
  apply (below_pow2_bits n); try lia.
  intros i Hi. rewrite Z.lor_spec.
  rewrite (proj1 (below_pow2_bits n a Hn (proj1 Ha)) (proj2 Ha) i Hi).
  rewrite (proj1 (below_pow2_bits n b Hn (proj1 Hb)) (proj2 Hb) i Hi).
  reflexivity.
Qed.

Lemma u8_id x : 0 <= x < 2 ^ 8 -> u8 x = x.
Proof. intros H. unfold u8. now apply Z.mod_small. Qed.

Lemma u8_bound x : 0 <= u8 x < 2 ^ 8.
Proof. apply u8_range. Qed.

(** The fields other than [shift] keep their ranges through the steps that
    precede the generator step. *)

Lemma refill_shift_bytes n : forall s, bytes_wf s -> bytes_wf (refill_shift n s).
Proof.
  induction n as [|n IH]; intros s H; [exact H|].
  cbn [refill_shift]. apply IH.
  destruct H as (Hca & Hcu & Hpr & Hli).
  unfold bytes_wf. fields. repeat split; try lia; apply u8_range.
Qed.

Lemma lazy_init_bytes s : bytes_wf s -> bytes_wf (lazy_init s).
Proof.
  intros H. unfold lazy_init. destruct (shift s =? 0); [|exact H].
  now apply refill_shift_bytes.
Qed.

Lemma scramble_bytes s : bytes_wf s -> bytes_wf (scramble s).
Proof. intros H. exact H. Qed.

Lemma splice_loop_bytes n : forall p s, bytes_wf s -> bytes_wf (splice_loop n p s).
Proof.
  induction n as [|n IH]; intros p s H; [exact H|].
  cbn [splice_loop]. destruct (_ && _); [|now apply IH].
  destruct H as (Hca & Hcu & Hpr & Hli).
  unfold bytes_wf. fields. repeat split; try lia; apply u8_range.
Qed.

Lemma start_loop_bytes n : forall p s, bytes_wf s -> bytes_wf (start_loop n p s).
Proof.
  induction n as [|n IH]; intros p s H; [exact H|].
  cbn [start_loop]. destruct (carry s =? _); [|now apply IH].
  destruct H as (Hca & Hcu & Hpr & Hli).
  destruct (carry _ =? 0); unfold bytes_wf; fields;
    repeat split; try lia; apply u8_range.
Qed.

Lemma cycle_escape_bytes s : bytes_wf s -> bytes_wf (cycle_escape s).
Proof.
  intros H. unfold cycle_escape.
  destruct (_ || _); [now apply splice_loop_bytes|now apply start_loop_bytes].
Qed.

Lemma normalize_carry_bytes s :
  bytes_wf s -> bytes_wf (normalize_carry s) /\ carry (normalize_carry s) < 210.
Proof.
  intros (Hca & Hcu & Hpr & Hli). unfold normalize_carry.
  destruct (Z.geb_spec (carry s) 210) as [Hge|Hlt].
  - unfold bytes_wf. fields.
    change (2 ^ 8) with 256 in *.
    rewrite u8_id by (change (2 ^ 8) with 256; lia).
    repeat split; lia.
  - split; [unfold bytes_wf; auto|lia].
Qed.

Lemma before_fixed_point_bytes s :
  state_wf s ->
  bytes_wf (normalize_carry (cycle_escape (scramble (lazy_init s)))) /\
  carry (normalize_carry (cycle_escape (scramble (lazy_init s)))) < 210.
Proof.
  intros (_ & Hca & Hcu & Hpr & Hli).
  apply normalize_carry_bytes, cycle_escape_bytes, scramble_bytes, lazy_init_bytes.
  unfold bytes_wf. auto.
Qed.

(** After every call [carry] is at most 210, whatever byte the caller had
    put there: the generator step computes [210 * prev + carry] from bytes
    and keeps the part above the low eight bits. *)
Theorem stable_random_carry_bound (s : libsrng_stable_random_state) :
  state_wf s -> 0 <= carry (snd (libsrng_stable_random s)) <= 210.
Proof.
  intros Hwf. unfold libsrng_stable_random, stable_advance. cbn [snd].
  destruct (before_fixed_point_bytes s Hwf) as [(Hca & Hcu & Hpr & Hli) Hlt].
  set (t := normalize_carry (cycle_escape (scramble (lazy_init s)))) in *.
  assert (Hf : 0 <= prev (fixed_point_escape t) < 2 ^ 8 /\
               0 <= carry (fixed_point_escape t) < 2 ^ 8).
  { unfold fixed_point_escape. destruct (_ || _); fields.
    - split; apply u8_range.
    - split; assumption. }
  destruct Hf as [Hp Hc]. set (f := fixed_point_escape t) in *.
  unfold generator_step. fields.
  change (2 ^ 8) with 256 in *.
  rewrite (u32_small (210 * prev f + carry f))
    by (change (2 ^ 32) with 4294967296; lia).
  rewrite Z.shiftr_div_pow2 by lia. change (2 ^ 8) with 256.
  assert (Hq : 0 <= (210 * prev f + carry f) / 256 <= 210).
  { split; [apply Z.div_pos; lia|].
    apply Z.lt_succ_r, Z.div_lt_upper_bound; lia. }
  rewrite u8_id by (change (2 ^ 8) with 256; lia). exact Hq.
Qed.

Lemma stable_random_carry_bound_witness :
  state_wf (mk_state 1 0 0 0 0xd2) /\
  0 <= carry (snd (libsrng_stable_random (mk_state 1 0 0 0 0xd2))) <= 210.
Proof.
  assert (Hwf : state_wf (mk_state 1 0 0 0 0xd2)).
  { unfold state_wf. cbn. lia. }
  split; [exact Hwf|].
  exact (stable_random_carry_bound (mk_state 1 0 0 0 0xd2) Hwf).
Defined.

(** The bound is reached: from an all-zero generator triple the fixed-point
    escape can load [prev] = 255 and [carry] = 212. *)

Remark stable_random_carry_bound_attained :
  carry (snd (libsrng_stable_random (mk_state 1 0 0 0 0xd2))) = 210.
Proof. vm_compute. reflexivity. Qed.

(** A call never leaves the generator triple on one of the two states the
    fixed-point test looks for: [prev], [current] and [carry] are not all 0
    afterwards, and they are not 255, 255 and 209 (sum 719). *)
Theorem stable_random_leaves_fixed_points (s : libsrng_stable_random_state) :
  state_wf s ->
  let t := snd (libsrng_stable_random s) in
  ~ (prev t = 0 /\ current t = 0 /\ carry t = 0) /\
  ~ (prev t = 255 /\ current t = 255 /\ carry t = 209).
Proof.
  intros Hwf. unfold libsrng_stable_random, stable_advance. cbn [snd].
  destruct (before_fixed_point_bytes s Hwf) as [(Hca & Hcu & Hpr & Hli) Hlt].
  set (u := normalize_carry (cycle_escape (scramble (lazy_init s)))) in *.
  change (2 ^ 8) with 256 in *.
  unfold fixed_point_escape.
  destruct (_ || _) eqn:Hesc.
  - (* the escape reloads the triple from three steps of [linear] *)
    unfold generator_step. fields.
    set (l1 := u8 (u8 (linear u * 73) + 29)).
    set (l2 := u8 (u8 (l1 * 73) + 29)).
    set (l3 := u8 (u8 (l2 * 73) + 29)).
    assert (H1 : 0 <= l1 < 256) by apply u8_range.
    assert (H2 : 0 <= l2 < 256) by apply u8_range.
    assert (H3 : 0 <= l3 < 256) by apply u8_range.
    rewrite !(u8_id l1), !(u8_id l2), !(u8_id l3) by (change (2 ^ 8) with 256; lia).
    rewrite (u32_small (210 * l1 + l2)) by (change (2 ^ 32) with 4294967296; lia).
    rewrite land_255, Z.shiftr_div_pow2 by lia.
    change (2 ^ 8) with 256.
    assert (Hq : 0 <= (210 * l1 + l2) / 256 < 256).
    { split; [apply Z.div_pos; lia|apply Z.div_lt_upper_bound; lia]. }
    rewrite (u8_id ((210 * l1 + l2) / 256)) by (change (2 ^ 8) with 256; lia).
    unfold u8. change (2 ^ 8) with 256. rewrite !Z.mod_mod by lia.
    split; intros (_ & Hc & Hk).
    + assert (E1 : l1 = 0) by (Z.div_mod_to_equations; lia).
      assert (E2 : l2 = 0) by (Z.div_mod_to_equations; lia).
      subst l2. rewrite E1 in E2. vm_compute in E2. discriminate E2.
    + assert (E1 : l1 = 255) by (Z.div_mod_to_equations; lia).
      assert (E2 : l2 = 209) by (Z.div_mod_to_equations; lia).
      subst l2. rewrite E1 in E2. vm_compute in E2. discriminate E2.
  - (* no escape: the sum was neither 0 nor 719 *)
    apply orb_false_iff in Hesc. destruct Hesc as [Hz H719].
    apply Z.eqb_neq in Hz, H719.
    rewrite u32_small in Hz, H719 by (change (2 ^ 32) with 4294967296; lia).
    unfold generator_step. fields.
    rewrite (u32_small (210 * prev u + carry u))
      by (change (2 ^ 32) with 4294967296; lia).
    rewrite land_255, Z.shiftr_div_pow2 by lia.
    change (2 ^ 8) with 256.
    assert (Hq : 0 <= (210 * prev u + carry u) / 256 < 256).
    { split; [apply Z.div_pos; lia|apply Z.div_lt_upper_bound; lia]. }
    rewrite (u8_id (current u)), (u8_id ((210 * prev u + carry u) / 256))
      by (change (2 ^ 8) with 256; lia).
    unfold u8. change (2 ^ 8) with 256. rewrite Z.mod_mod by lia.
    split; intros (Hp & Hc & Hk); Z.div_mod_to_equations; lia.
Qed.

Lemma stable_random_leaves_fixed_points_witness :
  state_wf (mk_state 1 209 255 255 0) /\
  ~ (prev (snd (libsrng_stable_random (mk_state 1 209 255 255 0))) = 255 /\
     current (snd (libsrng_stable_random (mk_state 1 209 255 255 0))) = 255 /\
     carry (snd (libsrng_stable_random (mk_state 1 209 255 255 0))) = 209).
Proof.
  assert (Hwf : state_wf (mk_state 1 209 255 255 0)).
  { unfold state_wf. cbn. lia. }
  split; [exact Hwf|].
  exact (proj2 (stable_random_leaves_fixed_points (mk_state 1 209 255 255 0) Hwf)).
Defined.

(** ** The two escape loops *)

Lemma lazy_init_triple s : generator_triple (lazy_init s) = generator_triple s.
Proof.
  unfold lazy_init. destruct (shift s =? 0); reflexivity.
Qed.

Lemma splice_step_false s a b c :
  generator_triple s <> (a, b, c) ->
  (prev s =? a) && (current s =? b) && (carry s =? c) = false.
Proof.
  intros H. apply not_true_is_false. intros E.
  apply andb_prop in E. destruct E as [E Ec].
  apply andb_prop in E. destruct E as [Ep Eu].
  apply Z.eqb_eq in Ep, Eu, Ec. apply H. unfold generator_triple. congruence.
Qed.

Lemma cycle_escape_no_splice s :
  prev s <> 0 \/ current s <> 0 ->
  (forall k, (k < 4)%nat -> generator_triple s <> short_cycle_triple k) ->
  cycle_escape s = s.
Proof.
  intros Hnz H. unfold cycle_escape.
  assert (Hc : negb (prev s =? 0) || negb (current s =? 0) = true).
  { destruct Hnz as [Hp | Hu]; apply Z.eqb_neq in Hp || apply Z.eqb_neq in Hu.
    - now rewrite Hp.
    - rewrite Hu. apply orb_true_r. }
  rewrite Hc. cbn [splice_loop Nat.add].
  pose proof (H 0%nat ltac:(lia)) as H0. pose proof (H 1%nat ltac:(lia)) as H1.
  pose proof (H 2%nat ltac:(lia)) as H2. pose proof (H 3%nat ltac:(lia)) as H3.
  unfold short_cycle_triple in H0, H1, H2, H3.
  cbn [Nat.mul Nat.add] in H0, H1, H2, H3.
  rewrite (splice_step_false s _ _ _ H0), (splice_step_false s _ _ _ H1),
    (splice_step_false s _ _ _ H2), (splice_step_false s _ _ _ H3).
  reflexivity.
Qed.

Lemma cycle_escape_no_start s :
  prev s = 0 -> current s = 0 ->
  (forall p, (p < 10)%nat -> carry s <> at_index cycle_start_points p) ->
  cycle_escape s = s.
Proof.
  intros Hp Hu H. unfold cycle_escape. rewrite Hp, Hu.
  change (negb (0 =? 0) || negb (0 =? 0)) with false. cbv iota.
  cbn [start_loop Nat.add].
  repeat match goal with
  | |- context [carry s =? at_index cycle_start_points ?p] =>
      let E := fresh "E" in
      destruct (Z.eqb_spec (carry s) (at_index cycle_start_points p)) as [E|_];
        [exfalso; revert E; apply H; lia|]
  end.
  reflexivity.
Qed.

(** The splice loop: when [prev] or [current] is not 0, a generator triple
    equal to the [k]-th listed triple (k = 0..3) is replaced by the next
    listed one, and every other sub-state is returned unchanged; [shift] and
    [linear] are never written. *)
Theorem splice_escape (s : libsrng_stable_random_state) :
  prev s <> 0 \/ current s <> 0 ->
  (forall k, (k < 4)%nat -> generator_triple s = short_cycle_triple k ->
     generator_triple (cycle_escape s) = short_cycle_triple (S k) /\
     shift (cycle_escape s) = shift s /\ linear (cycle_escape s) = linear s) /\
  ((forall k, (k < 4)%nat -> generator_triple s <> short_cycle_triple k) ->
   cycle_escape s = s).
Proof.
  intros Hnz. split; [|now apply cycle_escape_no_splice].
  intros k Hk Ht. destruct s as [sh ca cu pr li].
  unfold generator_triple in Ht. cbn [prev current carry] in Ht.
  destruct k as [|[|[|[|k]]]]; try lia;
    injection Ht as -> -> ->; repeat split; reflexivity.
Qed.

Lemma splice_escape_witness :
  (0x84 <> 0 \/ 0xe5 <> 0) /\
  generator_triple (cycle_escape (mk_state 7 0x56 0xe5 0x84 9)) = (0x8d, 0xb0, 0x32).
Proof.
  assert (Hnz : prev (mk_state 7 0x56 0xe5 0x84 9) <> 0 \/
                current (mk_state 7 0x56 0xe5 0x84 9) <> 0).
  { left. cbn. discriminate. }
  split; [left; discriminate|].
  apply (proj1 (splice_escape (mk_state 7 0x56 0xe5 0x84 9) Hnz) 2%nat).
  - lia.
  - reflexivity.
Defined.

(** The start-up loop: when [prev] and [current] are both 0, a [carry]
    equal to one of the first nine start points moves to the next start
    point; [carry] = 58, the last start point, loads the first listed triple
    and advances [linear] once; any other [carry] leaves the sub-state
    unchanged. *)
Theorem start_up_escape (s : libsrng_stable_random_state) :
  prev s = 0 -> current s = 0 ->
  (forall p, (p < 9)%nat -> carry s = at_index cycle_start_points p ->
     cycle_escape s = set_carry s (at_index cycle_start_points (S p))) /\
  (carry s = 58 ->
     cycle_escape s =
     STABLE_RANDOM_NEXT_LINEAR (mk_state (shift s) 0x9f 0x4f 0x72 (linear s))) /\
  ((forall p, (p < 10)%nat -> carry s <> at_index cycle_start_points p) ->
   cycle_escape s = s).
Proof.
  intros Hp Hu. split; [|split; [|now apply cycle_escape_no_start]].
  - intros p Hlt Hc. destruct s as [sh ca cu pr li].
    cbn [prev current carry] in Hp, Hu, Hc. subst pr cu.
    destruct p as [|[|[|[|[|[|[|[|[|p]]]]]]]]]; try lia; subst ca; reflexivity.
  - intros Hc. destruct s as [sh ca cu pr li].
    cbn [prev current carry] in Hp, Hu, Hc. subst pr cu ca. reflexivity.
Qed.

Lemma start_up_escape_witness :
  prev (mk_state 5 58 0 0 3) = 0 /\ current (mk_state 5 58 0 0 3) = 0 /\
  carry (mk_state 5 58 0 0 3) = 58 /\
  cycle_escape (mk_state 5 58 0 0 3) =
  STABLE_RANDOM_NEXT_LINEAR (mk_state 5 0x9f 0x4f 0x72 3).
Proof.
  split; [reflexivity|]. split; [reflexivity|]. split; [reflexivity|].
  apply (proj1 (proj2 (start_up_escape (mk_state 5 58 0 0 3) eq_refl eq_refl))).
  reflexivity.
Defined.

(** The version of [libsrng_stable_random] without the two escape loops
    returns the same byte and leaves the same sub-state as the version with
    them, on every sub-state whose generator triple is none of the four
    spliced triples and, when [prev] and [current] are 0, whose [carry] is
    none of the ten start points. *)
Theorem plain_agrees_outside_escapes (s : libsrng_stable_random_state) :
  ((prev s <> 0 \/ current s <> 0) /\
   forall k, (k < 4)%nat -> generator_triple s <> short_cycle_triple k) \/
  (prev s = 0 /\ current s = 0 /\
   forall p, (p < 10)%nat -> carry s <> at_index cycle_start_points p) ->
  libsrng_stable_random s = Plain.libsrng_stable_random s.
Proof.
  intros H.
  assert (Ht : generator_triple (scramble (lazy_init s)) = generator_triple s)
    by apply lazy_init_triple.
  unfold generator_triple in Ht. cbn [scramble set_shift prev current carry] in Ht.
  injection Ht as Ep Eu Ec.
  assert (E : cycle_escape (scramble (lazy_init s)) = scramble (lazy_init s)).
  { destruct H as [[Hnz Hk] | (Hp & Hu & Hc)].
    - apply cycle_escape_no_splice.
      + cbn [scramble set_shift prev current]. rewrite Ep, Eu. exact Hnz.
      + intros k Hlt. unfold generator_triple.
        cbn [scramble set_shift prev current carry]. rewrite Ep, Eu, Ec.
        now apply Hk.
    - apply cycle_escape_no_start.
      + cbn [scramble set_shift prev]. now rewrite Ep.
      + cbn [scramble set_shift current]. now rewrite Eu.
      + intros p Hlt. cbn [scramble set_shift carry]. rewrite Ec. now apply Hc. }
  unfold libsrng_stable_random, Plain.libsrng_stable_random, stable_advance.
  rewrite E. reflexivity.
Qed.

Lemma plain_agrees_outside_escapes_witness :
  libsrng_stable_random (mk_state 0 3 0 0 17) =
  Plain.libsrng_stable_random (mk_state 0 3 0 0 17).
Proof.
  apply plain_agrees_outside_escapes. right.
  split; [reflexivity|]. split; [reflexivity|].
  intros p Hp. cbn [carry].
  destruct p as [|[|[|[|[|[|[|[|[|[|p]]]]]]]]]]; try lia; discriminate.
Defined.

(** ** The linear counter and the xorshift scramble *)

Lemma linear_iter_next k : forall s,
  linear (Nat.iter k STABLE_RANDOM_NEXT_LINEAR s) =
  Nat.iter k next_linear_value (linear s).
Proof.
  induction k as [|k IH]; intros s; [reflexivity|].
  rewrite !Nat.iter_succ. unfold STABLE_RANDOM_NEXT_LINEAR at 1.
  cbn [linear set_linear]. rewrite IH. reflexivity.
Qed.

Lemma orbit_avoids_spec n : forall x l,
  orbit_avoids n x l = true ->
  forall k, (k < n)%nat -> Nat.iter k next_linear_value x <> l.
Proof.
  induction n as [|n IH]; intros x l H k Hk; [lia|].
  cbn [orbit_avoids] in H. apply andb_prop in H. destruct H as [Hx Hn].
  destruct k as [|k].
  - change (x <> l). apply negb_true_iff in Hx. now apply Z.eqb_neq.
  - rewrite Nat.iter_succ_r. apply IH; [exact Hn|lia].
Qed.

(** [STABLE_RANDOM_NEXT_LINEAR] is a full-period counter: from every byte
    value it comes back to that value after exactly 256 steps and not
    before, so it takes every byte value once in each period. *)
Theorem next_linear_full_period (s : libsrng_stable_random_state) :
  0 <= linear s < 2 ^ 8 ->
  linear (Nat.iter 256 STABLE_RANDOM_NEXT_LINEAR s) = linear s /\
  (forall k, (0 < k < 256)%nat ->
     linear (Nat.iter k STABLE_RANDOM_NEXT_LINEAR s) <> linear s).
Proof.
  intros Hl.
  pose proof (forall_below
    (fun l => (Nat.iter 256 next_linear_value l =? l) &&
              orbit_avoids 255 (next_linear_value l) l) 256) as H.
  cbv beta in H. specialize (H ltac:(vm_compute; reflexivity) (linear s) Hl).
  apply andb_prop in H. destruct H as [Hper Havoid].
  split.
  - rewrite linear_iter_next. now apply Z.eqb_eq.
  - intros k Hk. rewrite linear_iter_next.
    destruct k as [|k]; [lia|]. rewrite Nat.iter_succ_r.
    apply (orbit_avoids_spec 255); [exact Havoid|lia].
Qed.

Lemma next_linear_full_period_witness :
  0 <= linear (mk_state 0 0 0 0 0) < 2 ^ 8 /\
  linear (Nat.iter 128 STABLE_RANDOM_NEXT_LINEAR (mk_state 0 0 0 0 0)) <> 0.
Proof.
  assert (Hl : 0 <= linear (mk_state 0 0 0 0 0) < 2 ^ 8) by (cbn; lia).
  split; [exact Hl|].
  apply (proj2 (next_linear_full_period (mk_state 0 0 0 0 0) Hl) 128%nat). lia.
Defined.

Lemma lxor_interchange a b c d :
  Z.lxor (Z.lxor a b) (Z.lxor c d) = Z.lxor (Z.lxor a c) (Z.lxor b d).
Proof.
  rewrite !Z.lxor_assoc. f_equal.
  rewrite <- !Z.lxor_assoc. f_equal. apply Z.lxor_comm.
Qed.

Lemma u32_lxor a b : u32 (Z.lxor a b) = Z.lxor (u32 a) (u32 b).
Proof.
  unfold u32. rewrite <- !Z.land_ones by lia.
  apply Z.bits_inj'. intros i Hi.
  rewrite !Z.land_spec, !Z.lxor_spec, !Z.land_spec.
  destruct (Z.testbit a i), (Z.testbit b i), (Z.testbit (Z.ones 32) i); reflexivity.
Qed.

Lemma xor_shiftr_injective k x y :
  0 < k -> 0 <= x < 2 ^ 32 -> 0 <= y < 2 ^ 32 ->
  u32 (Z.lxor x (Z.shiftr x k)) = u32 (Z.lxor y (Z.shiftr y k)) -> x = y.
Proof.
  intros Hk Hx Hy E.
  assert (Hz : 0 <= Z.lxor x y < 2 ^ 32) by (apply lxor_below; lia).
  destruct (Z.eq_dec (Z.lxor x y) 0) as [E0|Hne]; [now apply Z.lxor_eq|].
  exfalso.
  pose proof (xor_shiftr_nonzero (Z.lxor x y) k Hk ltac:(lia)) as Hpos.
  rewrite Z.shiftr_lxor, lxor_interchange, u32_lxor, E, Z.lxor_nilpotent in Hpos.
  lia.
Qed.

Lemma xor_shiftl_injective x y :
  0 <= x < 2 ^ 32 -> 0 <= y < 2 ^ 32 ->
  u32 (Z.lxor x (u32 (Z.shiftl x 9))) = u32 (Z.lxor y (u32 (Z.shiftl y 9))) ->
  x = y.
Proof.
  intros Hx Hy E.
  assert (Hz : 0 <= Z.lxor x y < 2 ^ 32) by (apply lxor_below; lia).
  destruct (Z.eq_dec (Z.lxor x y) 0) as [E0|Hne]; [now apply Z.lxor_eq|].
  exfalso.
  pose proof (xor_shiftl_nonzero (Z.lxor x y) ltac:(lia)) as Hpos.
  rewrite Z.shiftl_lxor, (u32_lxor (Z.shiftl x 9) (Z.shiftl y 9)),
    lxor_interchange, u32_lxor, E, Z.lxor_nilpotent in Hpos.
  lia.
Qed.

(** The xorshift triple never maps two different 32-bit values to the same
    value (so it permutes the 32-bit values, keeping 0 fixed). *)
Theorem xorshift_triple_injective (x y : Z) :
  0 <= x < 2 ^ 32 -> 0 <= y < 2 ^ 32 ->
  xorshift_triple x = xorshift_triple y -> x = y.
Proof.
  intros Hx Hy E. unfold xorshift_triple in E.
  apply xor_shiftr_injective in E; try lia; try apply u32_range.
  apply xor_shiftl_injective in E; try apply u32_range.
  apply xor_shiftr_injective in E; try lia.
Qed.

Lemma xorshift_triple_injective_witness :
  0 <= 1 < 2 ^ 32 /\ 0 <= 2 < 2 ^ 32 /\
  (xorshift_triple 1 = xorshift_triple 2 -> 1 = 2).
Proof.
  split; [lia|]. split; [lia|].
  apply (xorshift_triple_injective 1 2); lia.
Defined.

(** ** Packing the sub-state into the register *)

Lemma pack_state_sum t :
  state_wf t ->
  pack_state t =
  shift t + carry t * 2 ^ 32 + current t * 2 ^ 40 + prev t * 2 ^ 48 +
  linear t * 2 ^ 56.
Proof.
  intros Hwf. rewrite <- (load_struct_store_le t Hwf).
  destruct Hwf as (Hsh & Hca & Hcu & Hpr & Hli).
  unfold struct_store, store_int, load_int. cbn [store_le app load_le].
  change (2 ^ 32) with 4294967296 in *. change (2 ^ 8) with 256 in *.
  change (2 ^ 40) with 1099511627776. change (2 ^ 48) with 281474976710656.
  change (2 ^ 56) with 72057594037927936.
  Z.div_mod_to_equations. lia.
Qed.

Lemma unpack_state_wf r : state_wf (unpack_state r).
Proof.
  unfold state_wf, unpack_state. cbn [shift carry current prev linear].
  repeat split; try apply u8_range; apply u32_range.
Qed.

Lemma u64_small_range x : 0 <= u64 x < 2 ^ 64.
Proof. unfold u64. apply Z.mod_pos_bound. reflexivity. Qed.

Lemma pack_state_range t : 0 <= pack_state t < 2 ^ 64.
Proof.
  unfold pack_state. repeat (apply lor_range; [lia| |]); apply u64_small_range.
Qed.

Lemma pack_unpack_id r : 0 <= r < 2 ^ 64 -> pack_state (unpack_state r) = r.
Proof.
  intros Hr. rewrite pack_state_sum by apply unpack_state_wf.
  unfold unpack_state. cbn [shift carry current prev linear].
  unfold u32, u8. rewrite !Z.shiftr_div_pow2 by lia.
  change (2 ^ 64) with 18446744073709551616 in Hr.
  change (2 ^ 32) with 4294967296. change (2 ^ 40) with 1099511627776.
  change (2 ^ 48) with 281474976710656. change (2 ^ 56) with 72057594037927936.
  change (2 ^ 8) with 256.
  Z.div_mod_to_equations. lia.
Qed.

Lemma unpack_pack_id t : state_wf t -> unpack_state (pack_state t) = t.
Proof.
  intros Hwf. rewrite (pack_state_sum t Hwf).
  destruct Hwf as (Hsh & Hca & Hcu & Hpr & Hli).
  destruct t as [sh ca cu pr li]. cbn [shift carry current prev linear] in *.
  unfold unpack_state, u32, u8. rewrite !Z.shiftr_div_pow2 by lia.
  change (2 ^ 32) with 4294967296 in *. change (2 ^ 40) with 1099511627776.
  change (2 ^ 48) with 281474976710656. change (2 ^ 56) with 72057594037927936.
  change (2 ^ 8) with 256 in *.
  f_equal; Z.div_mod_to_equations; lia.
Qed.

(** Packing and unpacking are inverse to each other: a 64-bit register
    unpacked into the five fields and packed again is the same register, and
    a sub-state with fields in their C ranges packed into a register and
    unpacked again is the same sub-state. *)
Theorem pack_unpack_round_trip :
  (forall r, 0 <= r < 2 ^ 64 -> pack_state (unpack_state r) = r) /\
  (forall t, state_wf t -> unpack_state (pack_state t) = t).
Proof.
  split; [apply pack_unpack_id|apply unpack_pack_id].
Qed.

Lemma pack_unpack_round_trip_witness :
  0 <= 0x0123456789abcdef < 2 ^ 64 /\
  pack_state (unpack_state 0x0123456789abcdef) = 0x0123456789abcdef.
Proof.
  split; [lia|].
  apply (proj1 pack_unpack_round_trip). lia.
Defined.

(** ** Bytes, halfwords and the register *)

Lemma stable_combine_range s : 0 <= stable_combine s < 2 ^ 8.
Proof.
  unfold stable_combine.
  destruct (combine_selector (linear s)) as [|[[p|p|]|[p|p|]|]|p]; apply u8_range.
Qed.

Lemma random_combined_range o r :
  0 <= fst (libsrng_random_combined o r) < 2 ^ 8 /\
  0 <= snd (libsrng_random_combined o r) < 2 ^ 64.
Proof.
  rewrite random_combined_portable. unfold combined_portable, libsrng_stable_random.
  cbn [fst snd]. split; [apply stable_combine_range|apply pack_state_range].
Qed.

Lemma multibyte_loop_app o a : forall b acc r,
  multibyte_loop o (a + b) acc r =
  multibyte_loop o b (fst (multibyte_loop o a acc r)) (snd (multibyte_loop o a acc r)).
Proof.
  induction a as [|a IH]; intros b acc r; [reflexivity|].
  cbn [Nat.add multibyte_loop].
  destruct (libsrng_random_combined o r) as [x r']. apply IH.
Qed.

Lemma pow256_succ w : 2 ^ (8 * Z.of_nat (S w)) = 256 * 2 ^ (8 * Z.of_nat w).
Proof.
  replace (8 * Z.of_nat (S w)) with (8 + 8 * Z.of_nat w) by lia.
  rewrite Z.pow_add_r by lia. reflexivity.
Qed.

Lemma multibyte_loop_acc o w : forall k acc r,
  0 <= acc < 2 ^ (8 * Z.of_nat k) -> (k + w <= 8)%nat ->
  multibyte_loop o w acc r =
    (acc * 2 ^ (8 * Z.of_nat w) + fst (multibyte_loop o w 0 r),
     snd (multibyte_loop o w 0 r)) /\
  0 <= fst (multibyte_loop o w 0 r) < 2 ^ (8 * Z.of_nat w).
Proof.
  induction w as [|w IH]; intros k acc r Hacc Hk.
  - cbn [multibyte_loop fst snd]. change (8 * Z.of_nat 0) with 0.
    split; [f_equal|]; lia.
  - cbn [multibyte_loop].
    destruct (random_combined_range o r) as [Hb _].
    destruct (libsrng_random_combined o r) as [b r']. cbn [fst] in Hb.
    change (2 ^ 8) with 256 in Hb.
    assert (Hstep : forall x j, 0 <= x < 2 ^ (8 * Z.of_nat j) -> (j + S w <= 8)%nat ->
              0 <= x * 256 + b < 2 ^ (8 * Z.of_nat (S j)) /\
              Z.lor (u64 (Z.shiftl x 8)) b = x * 256 + b).
    { intros x j Hx Hj. rewrite pow256_succ.
      assert (Hle : 2 ^ (8 * Z.of_nat (S j)) <= 2 ^ 64)
        by (apply Z.pow_le_mono_r; lia).
      rewrite pow256_succ in Hle.
      split; [lia|].
      rewrite Z.shiftl_mul_pow2 by lia. change (2 ^ 8) with 256.
      rewrite u64_small by lia.
      rewrite Z.lor_comm. change 256 with (2 ^ 8).
      rewrite lor_shifted_add by (change (2 ^ 8) with 256; lia). lia. }
    destruct (Hstep acc k Hacc Hk) as [Hr1 E1].
    destruct (Hstep 0 0%nat ltac:(change (8 * Z.of_nat 0) with 0; lia) ltac:(lia))
      as [Hr0 E0].
    rewrite E1, E0.
    destruct (IH (S k) (acc * 256 + b) r' Hr1 ltac:(lia)) as [Ea Hy].
    destruct (IH 1%nat (0 * 256 + b) r' Hr0 ltac:(lia)) as [Eb _].
    rewrite Ea, Eb. cbn [fst snd]. rewrite pow256_succ.
    split; [f_equal; ring|]. nia.
Qed.

(** The assembler is big-endian and composes: for widths [a] and [b] with
    [a + b <= 8], assembling [a + b] bytes gives the value of the first [a]
    bytes shifted left by [8 * b] bits plus the value of the next [b] bytes
    drawn from the register the first [a] left; an assembled value of [a]
    bytes is below 2^(8a). *)
Theorem multibyte_big_endian (o : byte_order) (r a b : Z) :
  0 <= a -> 0 <= b -> a + b <= 8 ->
  libsrng_random_combined_multibyte o r (a + b) =
    (fst (libsrng_random_combined_multibyte o r a) * 2 ^ (8 * b) +
     fst (libsrng_random_combined_multibyte o
            (snd (libsrng_random_combined_multibyte o r a)) b),
     snd (libsrng_random_combined_multibyte o
            (snd (libsrng_random_combined_multibyte o r a)) b)) /\
  0 <= fst (libsrng_random_combined_multibyte o r a) < 2 ^ (8 * a).
Proof.
  intros Ha Hb Hab. unfold libsrng_random_combined_multibyte, sizeof_uint64.
  destruct (Z.gtb_spec (a + b) 8) as [Hgt|_]; [lia|].
  destruct (Z.gtb_spec a 8) as [Hgt|_]; [lia|].
  destruct (Z.gtb_spec b 8) as [Hgt|_]; [lia|].
  rewrite Z2Nat.inj_add, multibyte_loop_app by lia.
  destruct (multibyte_loop_acc o (Z.to_nat a) 0 0 r
              ltac:(change (8 * Z.of_nat 0) with 0; lia) ltac:(lia)) as [_ Hx].
  rewrite Z2Nat.id in Hx by lia.
  split; [|exact Hx].
  destruct (multibyte_loop_acc o (Z.to_nat b) (Z.to_nat a)
              (fst (multibyte_loop o (Z.to_nat a) 0 r))
              (snd (multibyte_loop o (Z.to_nat a) 0 r))) as [E _].
  - rewrite Z2Nat.id by lia. exact Hx.
  - lia.
  - rewrite E, Z2Nat.id by lia. reflexivity.
Qed.

Lemma multibyte_big_endian_witness :
  0 <= 1 /\ 0 <= 1 /\ 1 + 1 <= 8 /\
  0 <= fst (libsrng_random_combined_multibyte LittleEndian 0 1) < 2 ^ (8 * 1).
Proof.
  split; [lia|]. split; [lia|]. split; [lia|].
  apply (multibyte_big_endian LittleEndian 0 1 1); lia.
Defined.

(** One call of [libsrng_random_halfword] draws exactly three bytes from
    the register (after the trigger replacement): the first two, most
    significant first, are the buffer, the third is the control byte, and
    the register is left as the third draw leaves it. *)
Theorem halfword_three_bytes (o : byte_order) (r : Z) :
  let d0 := libsrng_random_combined o (switch_trigger r) in
  let d1 := libsrng_random_combined o (snd d0) in
  let d2 := libsrng_random_combined o (snd d1) in
  libsrng_random_halfword o r =
    (halfword_finish (fst d2) (fst d0 * 256 + fst d1), snd d2).
Proof.
  intros d0 d1 d2.
  unfold libsrng_random_halfword, halfword_via, halfword_draw.
  unfold libsrng_random_combined_multibyte.
  change (2 >? sizeof_uint64) with false. cbv iota.
  change (Z.to_nat 2) with 2%nat. cbn [multibyte_loop].
  fold d0. pose proof (random_combined_range o (switch_trigger r)) as [H0 _].
  fold d0 in H0. destruct d0 as [b0 r1]. cbn [fst snd] in *.
  fold d1. pose proof (random_combined_range o r1) as [H1 _].
  fold d1 in H1. destruct d1 as [b1 r2]. cbn [fst snd] in *.
  fold d2. destruct d2 as [b2 r3]. cbn [fst snd].
  change (2 ^ 8) with 256 in *.
  change (Z.shiftl 0 8) with 0. change (u64 0) with 0. rewrite Z.lor_0_l.
  rewrite Z.shiftl_mul_pow2 by lia.
  rewrite u64_small by (change (2 ^ 8) with 256; change (2 ^ 64) with 18446744073709551616; lia).
  rewrite Z.lor_comm, lor_shifted_add by (change (2 ^ 8) with 256; lia).
  change (2 ^ 8) with 256. rewrite (Z.add_comm b1).
  assert (Eu : u16 (b0 * 256 + b1) = b0 * 256 + b1).
  { unfold u16. apply Z.mod_small. change (2 ^ 16) with 65536. lia. }
  rewrite !Eu. reflexivity.
Qed.

(** ** The tail of the 16-bit generator loses nothing *)

Lemma odd_affine_injective a c x y :
  Z.gcd (2 ^ 16) a = 1 ->
  0 <= x < 2 ^ 16 -> 0 <= y < 2 ^ 16 ->
  (x * a + c) mod 2 ^ 16 = (y * a + c) mod 2 ^ 16 -> x = y.
Proof.
  intros Hg Hx Hy E.
  assert (D : (2 ^ 16 | a * (x - y))).
  { exists ((x * a + c) / 2 ^ 16 - (y * a + c) / 2 ^ 16).
    pose proof (Z.div_mod (x * a + c) (2 ^ 16) ltac:(lia)) as Dx.
    pose proof (Z.div_mod (y * a + c) (2 ^ 16) ltac:(lia)) as Dy.
    rewrite E in Dx. change (2 ^ 16) with 65536 in *. lia. }
  apply Z.gauss in D; [|exact Hg].
  destruct D as [q Hq]. change (2 ^ 16) with 65536 in *. lia.
Qed.

Lemma random_linear_range x : 0 <= libsrng_random_linear x < 2 ^ 16.
Proof.
  unfold libsrng_random_linear. rewrite land_65535.
  apply Z.mod_pos_bound. reflexivity.
Qed.

Lemma random_linear_injective x y :
  0 <= x < 2 ^ 16 -> 0 <= y < 2 ^ 16 ->
  libsrng_random_linear x = libsrng_random_linear y -> x = y.
Proof.
  intros Hx Hy E. unfold libsrng_random_linear in E. rewrite !land_65535 in E.
  apply (odd_affine_injective HALFWORD_LCG_MULTIPLIER HALFWORD_LCG_ADDEND);
    try assumption.
  reflexivity.
Qed.

Lemma whiten_range n : forall x, 0 <= x < 2 ^ 16 -> 0 <= whiten n x < 2 ^ 16.
Proof.
  induction n as [|n IH]; intros x Hx; [exact Hx|].
  cbn [whiten]. apply IH, random_linear_range.
Qed.

Lemma whiten_injective n : forall x y,
  0 <= x < 2 ^ 16 -> 0 <= y < 2 ^ 16 -> whiten n x = whiten n y -> x = y.
Proof.
  induction n as [|n IH]; intros x y Hx Hy E; [exact E|].
  cbn [whiten] in E.
  apply IH in E; try apply random_linear_range.
  now apply random_linear_injective.
Qed.

Lemma rotate_value s z :
  1 <= s <= 15 -> 0 <= z < 2 ^ 16 ->
  (z / 2 ^ (16 - s) + z * 2 ^ s) mod 2 ^ 16 =
  z / 2 ^ (16 - s) + (z mod 2 ^ (16 - s)) * 2 ^ s /\
  0 <= z / 2 ^ (16 - s) < 2 ^ s /\ 0 <= z mod 2 ^ (16 - s) < 2 ^ (16 - s).
Proof.
  intros Hs Hz.
  assert (HK : 0 < 2 ^ (16 - s)) by (apply Z.pow_pos_nonneg; lia).
  assert (HS : 0 < 2 ^ s) by (apply Z.pow_pos_nonneg; lia).
  assert (HKS : 2 ^ (16 - s) * 2 ^ s = 2 ^ 16).
  { rewrite <- Z.pow_add_r by lia. f_equal. lia. }
  pose proof (Z.div_mod z (2 ^ (16 - s)) ltac:(lia)) as Hdm.
  pose proof (Z.mod_pos_bound z (2 ^ (16 - s)) HK) as Hlo.
  set (K := 2 ^ (16 - s)) in *. set (S := 2 ^ s) in *.
  set (hi := z / K) in *. set (lo := z mod K) in *.
  assert (Hhi : 0 <= hi < S).
  { split; [apply Z.div_pos; lia|]. apply Z.div_lt_upper_bound; [lia|]. lia. }
  split; [|split; assumption].
  replace (hi + z * S) with (hi + lo * S + hi * 2 ^ 16) by (rewrite <- HKS; lia).
  rewrite Z.mod_add by lia. apply Z.mod_small. rewrite <- HKS. nia.
Qed.

Lemma rotate_injective s x y :
  1 <= s <= 15 -> 0 <= x < 2 ^ 16 -> 0 <= y < 2 ^ 16 ->
  u16 (Z.lor (Z.shiftl x s) (Z.shiftr x (16 - s))) =
  u16 (Z.lor (Z.shiftl y s) (Z.shiftr y (16 - s))) -> x = y.
Proof.
  intros Hs Hx Hy E.
  assert (Hrot : forall z, 0 <= z < 2 ^ 16 ->
            Z.lor (Z.shiftl z s) (Z.shiftr z (16 - s)) =
            z / 2 ^ (16 - s) + z * 2 ^ s).
  { intros z Hz. rewrite Z.shiftl_mul_pow2, Z.shiftr_div_pow2 by lia.
    rewrite Z.lor_comm. apply lor_shifted_add; try lia.
    assert (0 < 2 ^ (16 - s)) by (apply Z.pow_pos_nonneg; lia).
    split; [apply Z.div_pos; lia|].
    apply Z.div_lt_upper_bound; [lia|].
    rewrite <- Z.pow_add_r by lia. replace (16 - s + s) with 16 by lia. lia. }
  rewrite !Hrot in E by assumption. unfold u16 in E.
  destruct (rotate_value s x Hs Hx) as (Ex & Hhx & Hlx).
  destruct (rotate_value s y Hs Hy) as (Ey & Hhy & Hly).
  rewrite Ex, Ey in E.
  assert (HK : 0 < 2 ^ (16 - s)) by (apply Z.pow_pos_nonneg; lia).
  pose proof (Z.div_mod x (2 ^ (16 - s)) ltac:(lia)) as Dx.
  pose proof (Z.div_mod y (2 ^ (16 - s)) ltac:(lia)) as Dy.
  assert (El : x mod 2 ^ (16 - s) = y mod 2 ^ (16 - s)) by nia.
  assert (Eh : x / 2 ^ (16 - s) = y / 2 ^ (16 - s)) by nia.
  rewrite Dx, Dy, El, Eh. reflexivity.
Qed.

Lemma halfword_decode_facts count :
  0 <= count < 2 ^ 8 ->
  0 <= u8 (Z.shiftr count 4) <= 15 /\
  Z.gcd (2 ^ 16) (u8 (3 + Z.shiftr (Z.land count 12) 1)) = 1.
Proof.
  intros Hc.
  pose proof (forall_below
    (fun c => (0 <=? u8 (Z.shiftr c 4)) && (u8 (Z.shiftr c 4) <=? 15) &&
              (Z.gcd (2 ^ 16) (u8 (3 + Z.shiftr (Z.land c 12) 1)) =? 1)) 256) as H.
  cbv beta in H. specialize (H ltac:(vm_compute; reflexivity) count Hc).
  apply andb_prop in H. destruct H as [H Hg].
  apply andb_prop in H. destruct H as [H0 H15].
  apply Z.leb_le in H0, H15. apply Z.eqb_eq in Hg. auto.
Qed.

(** For every control byte, what [libsrng_random_halfword] does to the
    assembled buffer (whitening rounds, rotation, multiplication by 3, 5, 7
    or 9 modulo 2^16) is injective: two different 16-bit buffers never give
    the same output, and the output is a 16-bit value. *)
Theorem halfword_finish_injective (count x y : Z) :
  0 <= count < 2 ^ 8 -> 0 <= x < 2 ^ 16 -> 0 <= y < 2 ^ 16 ->
  0 <= halfword_finish count x < 2 ^ 16 /\
  (halfword_finish count x = halfword_finish count y -> x = y).
Proof.
  intros Hc Hx Hy. unfold halfword_finish.
  destruct (halfword_decode_facts count Hc) as [Hs Hg].
  set (s := u8 (Z.shiftr count 4)) in *.
  set (m := u8 (3 + Z.shiftr (Z.land count 12) 1)) in *.
  set (n := Z.to_nat (u8 (Z.land count 3 + 2))).
  rewrite !land_65535.
  split; [apply Z.mod_pos_bound; reflexivity|].
  intros E.
  pose proof (whiten_range n x Hx) as Hwx.
  pose proof (whiten_range n y Hy) as Hwy.
  destruct (Z.eqb_spec s 0) as [_|Hnz].
  - replace (whiten n x * m) with (whiten n x * m + 0) in E by lia.
    replace (whiten n y * m) with (whiten n y * m + 0) in E by lia.
    apply odd_affine_injective in E; try assumption.
    now apply (whiten_injective n).
  - replace (u16 (Z.lor (Z.shiftl (whiten n x) s) (Z.shiftr (whiten n x) (16 - s))) * m)
      with (u16 (Z.lor (Z.shiftl (whiten n x) s) (Z.shiftr (whiten n x) (16 - s))) * m + 0)
      in E by lia.
    replace (u16 (Z.lor (Z.shiftl (whiten n y) s) (Z.shiftr (whiten n y) (16 - s))) * m)
      with (u16 (Z.lor (Z.shiftl (whiten n y) s) (Z.shiftr (whiten n y) (16 - s))) * m + 0)
      in E by lia.
    apply odd_affine_injective in E;
      try assumption; try (unfold u16; apply Z.mod_pos_bound; reflexivity).
    apply rotate_injective in E; try assumption; [|lia].
    now apply (whiten_injective n).
Qed.

Lemma halfword_finish_injective_witness :
  0 <= 0x5a < 2 ^ 8 /\ 0 <= 1 < 2 ^ 16 /\ 0 <= 2 < 2 ^ 16 /\
  (halfword_finish 0x5a 1 = halfword_finish 0x5a 2 -> 1 = 2).
Proof.
  split; [lia|]. split; [lia|]. split; [lia|].
  apply (halfword_finish_injective 0x5a 1 2); lia.
Defined.

(** ** Rejection sampling *)

Lemma halfword_draws_length o n : forall r, length (halfword_draws o n r) = n.
Proof.
  induction n as [|n IH]; intros r; [reflexivity|].
  cbn [halfword_draws]. destruct (libsrng_random_halfword o r).
  cbn [length]. now rewrite IH.
Qed.

Lemma halfword_draws_range o n : forall r h,
  In h (halfword_draws o n r) -> 0 <= h < 2 ^ 16.
Proof.
  induction n as [|n IH]; intros r h Hin; [destruct Hin|].
  cbn [halfword_draws] in Hin.
  pose proof (random_halfword_range o r) as Hh.
  destruct (libsrng_random_halfword o r) as [h' r'].
  destruct Hin as [<- | Hin]; [exact Hh|now apply (IH r')].
Qed.

Lemma resample_first_accepted o fuel : forall b h r v r',
  resample o (libsrng_random_combined_multibyte o) fuel b h r = Some (v, r') ->
  exists k, (k <= fuel)%nat /\
    nth k (h :: halfword_draws o fuel r) 0 = v /\ b <= v /\
    (forall j, (j < k)%nat -> nth j (h :: halfword_draws o fuel r) 0 < b).
Proof.
  induction fuel as [|f IH]; intros b h r v r' E; cbn [resample] in E.
  - destruct (Z.ltb_spec h b) as [Hlt|Hge]; [discriminate E|].
    injection E as <- _. exists 0%nat. repeat split; [lia|lia|intros j Hj; lia].
  - destruct (Z.ltb_spec h b) as [Hlt|Hge].
    + fold (libsrng_random_halfword o r) in E. cbn [halfword_draws].
      destruct (libsrng_random_halfword o r) as [h' r1].
      destruct (IH b h' r1 v r' E) as (k & Hk & Hn & Hb & Hrej).
      exists (S k). repeat split; [lia|exact Hn|exact Hb|].
      intros j Hj. destruct j as [|j]; [exact Hlt|].
      apply Hrej. lia.
    + injection E as <- _. exists 0%nat.
      repeat split; [lia|lia|intros j Hj; lia].
Qed.

(** For a limit that is not a power of two, the value returned is
    [h mod limit] where [h] is the first of the successive 16-bit draws that
    is not below [0x10000 mod limit]; every earlier draw was below it.  The
    accepted draws thus range over [0x10000 mod limit .. 0xffff], an interval
    whose size is a multiple of the limit, so no residue is favoured. *)
Theorem range_accepts_first_unbiased_draw
  (o : byte_order) (fuel : nat) (r limit v r' : Z) :
  1 < limit < 2 ^ 16 -> Z.land limit (limit - 1) <> 0 ->
  libsrng_random_range o fuel r limit = Some (v, r') ->
  exists k, (k <= fuel)%nat /\
    0x10000 mod limit <= nth k (halfword_draws o (S fuel) r) 0 < 2 ^ 16 /\
    (forall j, (j < k)%nat ->
       nth j (halfword_draws o (S fuel) r) 0 < 0x10000 mod limit) /\
    v = nth k (halfword_draws o (S fuel) r) 0 mod limit /\
    (0x10000 - 0x10000 mod limit) mod limit = 0.
Proof.
  intros Hl Hnp E.
  assert (Hbias : 0 <= 0x10000 mod limit < limit) by (apply Z.mod_pos_bound; lia).
  assert (Hu : u16 (0x10000 mod limit) = 0x10000 mod limit).
  { unfold u16. apply Z.mod_small. lia. }
  assert (Hmult : (0x10000 - 0x10000 mod limit) mod limit = 0).
  { replace (0x10000 - 0x10000 mod limit) with (0x10000 / limit * limit)
      by (pose proof (Z.div_mod 0x10000 limit ltac:(lia)); lia).
    apply Z.mod_mul. lia. }
  assert (Hrange : forall k, (k <= fuel)%nat ->
            0 <= nth k (halfword_draws o (S fuel) r) 0 < 2 ^ 16).
  { intros k Hk. apply (halfword_draws_range o (S fuel) r).
    apply nth_In. rewrite halfword_draws_length. lia. }
  unfold libsrng_random_range, range_via in E.
  destruct (Z.eqb_spec limit 1) as [E1|_]; [lia|].
  fold (libsrng_random_halfword o r) in E.
  cbn [halfword_draws] in *.
  destruct (libsrng_random_halfword o r) as [h r1].
  destruct (Z.eqb_spec (Z.land limit (limit - 1)) 0) as [Ep|_]; [contradiction|].
  destruct (Z.geb_spec h limit) as [Hge|Hlt].
  - injection E as <- _. exists 0%nat.
    pose proof (Hrange 0%nat ltac:(lia)) as H0. cbn [nth] in *.
    repeat split; lia.
  - rewrite Hu in E.
    destruct (resample _ _ fuel _ h r1) as [[h2 r2]|] eqn:Eres; [|discriminate E].
    injection E as <- _.
    destruct (resample_first_accepted o fuel _ h r1 h2 r2 Eres)
      as (k & Hk & Hn & Hb & Hrej).
    exists k. pose proof (Hrange k Hk) as Hr. rewrite Hn in *.
    repeat split; try lia; try assumption.
Qed.

Lemma range_accepts_first_unbiased_draw_witness :
  1 < 40000 < 2 ^ 16 /\ Z.land 40000 (40000 - 1) <> 0 /\
  libsrng_random_range LittleEndian 3 0 40000 = Some (7120, 3010828242238660950) /\
  exists k, (k <= 3)%nat /\
    0x10000 mod 40000 <= nth k (halfword_draws LittleEndian 4 0) 0 < 2 ^ 16 /\
    (forall j, (j < k)%nat ->
       nth j (halfword_draws LittleEndian 4 0) 0 < 0x10000 mod 40000) /\
    7120 = nth k (halfword_draws LittleEndian 4 0) 0 mod 40000 /\
    (0x10000 - 0x10000 mod 40000) mod 40000 = 0.
Proof.
  split; [lia|]. split; [discriminate|]. split; [vm_compute; reflexivity|].
  apply (range_accepts_first_unbiased_draw LittleEndian 3 0 40000 7120
           3010828242238660950);
    [lia | discriminate | vm_compute; reflexivity].
Defined.

(** ** The seed generator *)

Lemma seed_step h acc k :
  0 <= h < 2 ^ 16 -> 0 <= acc < 2 ^ k -> 0 <= k <= 48 ->
  u64 (u64 (Z.shiftl acc 16) + h) = acc * 2 ^ 16 + h /\
  0 <= acc * 2 ^ 16 + h < 2 ^ (k + 16).
Proof.
  intros Hh Hacc Hk.
  assert (Hp : 2 ^ (k + 16) = 2 ^ k * 2 ^ 16) by (apply Z.pow_add_r; lia).
  assert (Hle : 2 ^ (k + 16) <= 2 ^ 64) by (apply Z.pow_le_mono_r; lia).
  rewrite Hp in *. change (2 ^ 16) with 65536 in *.
  rewrite Z.shiftl_mul_pow2 by lia. change (2 ^ 16) with 65536.
  set (P := 2 ^ k) in *.
  assert (Hb : 0 <= acc * 65536 + h < P * 65536) by nia.
  rewrite (u64_small (acc * 65536)) by nia.
  rewrite u64_small by lia. lia.
Qed.

(** [libsrng_random_seed] assembles eight bytes into [first], then takes
    four successive 16-bit draws from the register the assembly left and
    concatenates them, first draw most significant, into [second]; the new
    register is [(first * K + A1) xor (second * K + A2)] with the products
    and sums taken modulo 2^64. *)
Theorem seed_concatenates (o : byte_order) (r : Z) :
  let first := fst (libsrng_random_combined_multibyte o r 8) in
  let hs := halfword_draws o 4 (snd (libsrng_random_combined_multibyte o r 8)) in
  let second :=
    nth 0 hs 0 * 2 ^ 48 + nth 1 hs 0 * 2 ^ 32 + nth 2 hs 0 * 2 ^ 16 + nth 3 hs 0 in
  libsrng_random_seed o r =
    Z.lxor (u64 (first * SEED_LCG_MULTIPLIER + SEED_LCG_FIRST_ADDEND))
           (u64 (second * SEED_LCG_MULTIPLIER + SEED_LCG_SECOND_ADDEND)).
Proof.
  unfold libsrng_random_seed, seed_via.
  destruct (libsrng_random_combined_multibyte o r 8) as [first r1]. cbn [fst snd].
  cbn [seed_halfwords halfword_draws].
  fold (libsrng_random_halfword o).
  pose proof (random_halfword_range o r1) as H0.
  destruct (libsrng_random_halfword o r1) as [h0 r2]. cbn [fst] in H0.
  pose proof (random_halfword_range o r2) as H1.
  destruct (libsrng_random_halfword o r2) as [h1 r3]. cbn [fst] in H1.
  pose proof (random_halfword_range o r3) as H2.
  destruct (libsrng_random_halfword o r3) as [h2 r4]. cbn [fst] in H2.
  pose proof (random_halfword_range o r4) as H3.
  destruct (libsrng_random_halfword o r4) as [h3 r5]. cbn [fst] in H3.
  cbn [nth].
  destruct (seed_step h0 0 0 H0 ltac:(change (2 ^ 0) with 1; lia) ltac:(lia)) as [E0 B0].
  rewrite E0. clear E0. change (0 + 16) with 16 in B0.
  destruct (seed_step h1 _ 16 H1 B0 ltac:(lia)) as [E1 B1].
  rewrite E1. clear E1. change (16 + 16) with 32 in B1.
  destruct (seed_step h2 _ 32 H2 B1 ltac:(lia)) as [E2 B2].
  rewrite E2. clear E2. change (32 + 16) with 48 in B2.
  destruct (seed_step h3 _ 48 H3 B2 ltac:(lia)) as [E3 _].
  rewrite E3. clear E3.
  do 2 f_equal. f_equal. f_equal.
  change (2 ^ 48) with (2 ^ 16 * 2 ^ 16 * 2 ^ 16).
  change (2 ^ 32) with (2 ^ 16 * 2 ^ 16). ring.
Qed.

(** ** The value returned by the range reducer *)

Lemma range_returns_when_accepted o fuel r limit :
  1 < limit < 2 ^ 16 ->
  (exists h, In h (halfword_draws o (S fuel) r) /\ 0x10000 mod limit <= h) ->
  exists v r', libsrng_random_range o fuel r limit = Some (v, r').
Proof.
  intros Hl Hacc.
  destruct (random_returns_when_accepted o fuel r limit 0 Hl Hacc) as (v & st' & E).
  rewrite random_no_reseed in E.
  destruct (libsrng_random_range o fuel r limit) as [[v' r']|]; [eauto|discriminate E].
Qed.

(** Whenever [libsrng_random_range] returns a value for a limit above 1,
    the value is at least 0 and below the limit; it does return as soon as
    one of the successive draws reaches [0x10000 mod limit]. *)
Theorem range_value_below_limit (o : byte_order) (fuel : nat) (r limit : Z) :
  1 < limit < 2 ^ 16 ->
  (forall v r', libsrng_random_range o fuel r limit = Some (v, r') ->
     0 <= v < limit) /\
  ((exists h, In h (halfword_draws o (S fuel) r) /\ 0x10000 mod limit <= h) ->
   exists v r', libsrng_random_range o fuel r limit = Some (v, r')).
Proof.
  intros Hl. split; [|now apply range_returns_when_accepted].
  unfold libsrng_random_range, range_via.
  destruct (Z.eqb_spec limit 1) as [E|_]; [lia|].
  fold (libsrng_random_halfword o).
  pose proof (random_halfword_range o r) as Hh.
  destruct (libsrng_random_halfword o r) as [h r1]. cbn [fst] in Hh.
  destruct (Z.land limit (limit - 1) =? 0).
  - (* power of two: the mask is limit - 1 *)
    intros v r' [= <- _].
    pose proof (land_le_r h (limit - 1) ltac:(lia) ltac:(lia)) as Hle.
    assert (H0 : 0 <= Z.land h (limit - 1)) by (apply Z.land_nonneg; lia).
    unfold u16. rewrite Z.mod_small; lia.
  - destruct (h >=? limit).
    + intros v r' [= <- _]. apply Z.mod_pos_bound. lia.
    + intros v r' Hret.
      destruct (resample _ _ fuel _ h r1) as [[v' r2]|]; [|discriminate Hret].
      injection Hret as <- _. apply Z.mod_pos_bound. lia.
Qed.

Lemma range_value_below_limit_witness :
  1 < 40000 < 2 ^ 16 /\
  libsrng_random_range LittleEndian 3 0 40000 = Some (7120, 3010828242238660950) /\
  0 <= 7120 < 40000.
Proof.
  split; [lia|]. split; [vm_compute; reflexivity|].
  apply (proj1 (range_value_below_limit LittleEndian 3 0 40000 ltac:(lia))
           7120 3010828242238660950).
  vm_compute. reflexivity.
Defined.

(** ** The register stored through one lvalue and read through another *)

Lemma seen_register_sum mem sh :
  0 <= mem -> 0 <= sh < 2 ^ 32 ->
  Aliasing.seen_register mem sh = mem / 2 ^ 32 * 2 ^ 32 + sh.
Proof.
  intros Hm Hs. unfold Aliasing.seen_register.
  rewrite (u32_small sh Hs), Z.shiftl_mul_pow2, Z.shiftr_div_pow2 by lia.
  rewrite Z.lor_comm, lor_shifted_add; try lia.
  apply Z.div_pos; lia.
Qed.

(** When the read of [state->shift] yields what the register holds, the
    register seen is the register. *)

Lemma seen_register_same r :
  0 <= r < 2 ^ 64 -> Aliasing.seen_register r (u32 r) = r.
Proof.
  intros Hr. rewrite seen_register_sum by (try apply u32_range; lia).
  unfold u32. pose proof (Z.div_mod r (2 ^ 32) ltac:(lia)). lia.
Qed.

(** The in-place branch with a given [shift] is the in-place branch of the
    model on the register seen. *)

Lemma aliased_overlay_seen sh r :
  0 <= r < 2 ^ 64 -> 0 <= sh < 2 ^ 32 ->
  Aliasing.combined_overlay LittleEndian sh r =
  combined_overlay LittleEndian (Aliasing.seen_register r sh).
Proof.
  intros Hr Hs. unfold Aliasing.combined_overlay, combined_overlay.
  rewrite !struct_load_store_le.
  assert (E : unpack_state (Aliasing.seen_register r sh) =
              mk_state sh (carry (unpack_state r)) (current (unpack_state r))
                       (prev (unpack_state r)) (linear (unpack_state r))).
  { rewrite seen_register_sum by lia.
    unfold unpack_state. cbn [carry current prev linear].
    unfold u32, u8. rewrite !Z.shiftr_div_pow2 by lia.
    change (2 ^ 64) with 18446744073709551616 in Hr.
    change (2 ^ 32) with 4294967296 in *. change (2 ^ 40) with 1099511627776.
    change (2 ^ 48) with 281474976710656. change (2 ^ 56) with 72057594037927936.
    change (2 ^ 8) with 256.
    f_equal; Z.div_mod_to_equations; lia. }
  rewrite E. reflexivity.
Qed.

Lemma seed_value_range o r : 0 <= libsrng_random_seed o r < 2 ^ 64.
Proof.
  unfold libsrng_random_seed, seed_via.
  destruct (libsrng_random_combined_multibyte o r 8) as [first r1].
  destruct (seed_halfwords o _ 4 0 r1) as [second r2].
  apply lxor_below; [lia| |]; apply u64_small_range.
Qed.

(** The stale [shift] needs a store followed by another iteration: with a
    reseed count of 0 or 1, and on a machine where the compile-time test
    fails, the build computes what the explicit register passing computes. *)

Lemma aliasing_needs_two_reseeds o fuel r range reseed :
  0 <= r < 2 ^ 64 ->
  (reseed <= 1)%nat \/ overlay_condition o = false ->
  Aliasing.libsrng_random o fuel (Some r) range reseed =
  libsrng_random o fuel (Some r) range reseed.
Proof.
  intros Hr Hcase. rewrite random_reseed_range. unfold Aliasing.libsrng_random.
  assert (E : fst (Aliasing.reseed_loop o reseed r (u32 r)) =
              Nat.iter reseed (libsrng_random_seed o) r).
  { destruct Hcase as [Hle | Hno].
    - destruct reseed as [|[|n]]; try lia; [reflexivity|].
      cbn [Aliasing.reseed_loop fst]. now rewrite seen_register_same.
    - revert r Hr. induction reseed as [|n IH]; intros r Hr; [reflexivity|].
      cbn [Aliasing.reseed_loop]. rewrite Hno, seen_register_same by exact Hr.
      rewrite IH by apply seed_value_range.
      rewrite Nat.iter_succ_r. reflexivity. }
  rewrite E. reflexivity.
Qed.

(** C2: the property asked for, that a call with range 1 leaves in the
    register [libsrng_random_seed] applied [reseed] times to its original
    value, is what the explicit-packing build does and what the loop is
    written to do, but not what the build with the in-place branch does once
    the reseed count reaches 2: from a register holding 0 the second
    iteration runs on the [shift] the first one left behind and the call
    leaves 11885386571483640253, where two applications of
    [libsrng_random_seed] give 7154058255722403843. *)
Theorem reseed_twice_reads_stale_shift :
  Aliasing.libsrng_random LittleEndian 0 (Some 0) 1 2 =
    Some (0, Some 11885386571483640253) /\
  Nat.iter 2 (libsrng_random_seed LittleEndian) 0 = 7154058255722403843 /\
  Aliasing.libsrng_random BigEndian 0 (Some 0) 1 2 =
    Some (0, Some 7154058255722403843).
Proof. vm_compute. repeat split; reflexivity. Qed.

(** The same build, three reseeds, and a draw after two reseeds. *)

Remark reseed_stale_shift_further :
  Aliasing.libsrng_random LittleEndian 0 (Some 0) 1 3 =
    Some (0, Some 6647620254992781665) /\
  Aliasing.libsrng_random LittleEndian 0 (Some 7) 0 2 =
    Some (49524, Some 5471545334034497758).
Proof. vm_compute. split; reflexivity. Qed.

(** C6: the two branches of [libsrng_random_combined] are meant to return
    the same byte and leave the same register, and do so when [shift] is
    read from the register; but the in-place branch reads it through an
    lvalue of another type.  After the first reseed from a register holding
    0 the register holds 11997190574693515046 while the read of
    [state->shift] yields 907676486, the value the callee left: the
    in-place branch then returns 20 where the bit-packing branch on that
    register returns 23, and the registers they leave differ. *)
Theorem overlay_reads_stale_shift :
  libsrng_random_seed LittleEndian 0 = 11997190574693515046 /\
  u32 (Aliasing.seed_leaves LittleEndian 0) = 907676486 /\
  Aliasing.combined_overlay LittleEndian 907676486 11997190574693515046 =
    (20, 8328738352468495249) /\
  combined_portable 11997190574693515046 = (23, 8328738351020148854).
Proof. vm_compute. repeat split; reflexivity. Qed.
